(** * VectorDBFAISS: the vector store, its in-memory index and the two
      request pipelines, embedded from [server.js], [serverArray.js],
      [embed.js] and [embedArray.js].

    JavaScript numbers are IEEE 754 binary64 values; they are embedded as
    Rocq's primitive [float]s, whose operations are the same correctly
    rounded ones.  Arrays are lists, the SQLite table is a list of rows
    in rowid order, and every call that leaves the process (the embedding
    and chat endpoints, the database driver reporting an error) is an
    explicit outcome handed to the handler. *)

From Stdlib Require Import ZArith List Bool Lia String Ascii.
From Stdlib.Strings Require Import Byte.
From Stdlib Require DecimalString.
From Stdlib Require Import Floats Permutation Sorted.
Import ListNotations.

Local Open Scope string_scope.
Local Open Scope list_scope.
Local Open Scope Z_scope.

(** ** JavaScript values and built-ins used by the sources *)

Module JS.

Definition number := float.

(** [ToBoolean] on a number: [0], [-0] and [NaN] are falsy. *)
Definition truthy (x : number) : bool :=
  negb (PrimFloat.eqb x 0%float || PrimFloat.is_nan x).

(** [ToBoolean] on a string: only the empty string is falsy. *)
Definition truthy_string (s : string) : bool :=
  match s with EmptyString => false | String _ _ => true end.

(** [arr[i]] read as a number: a hole or an index past the end is
    [undefined], and [ToNumber(undefined)] is [NaN]. *)
Definition get (arr : list number) (i : nat) : number :=
  nth i arr PrimFloat.nan.

(** [arr.reduce((acc, val, i) => f(acc, val, i), init)], with the
    index of the first element given explicitly. *)
Fixpoint reduce_from {A B : Type} (f : B -> A -> nat -> B)
         (i : nat) (arr : list A) (acc : B) : B :=
  match arr with
  | [] => acc
  | val :: rest => reduce_from f (S i) rest (f acc val i)
  end.

Definition reduce {A B : Type} (f : B -> A -> nat -> B)
           (arr : list A) (init : B) : B :=
  reduce_from f 0%nat arr init.

(** [arr.slice(0, k)] for an integer [k]: a negative end counts from
    the end of the array, and both bounds are clamped to the array. *)
Definition slice0 {A : Type} (arr : list A) (k : Z) : list A :=
  let len := Z.of_nat (List.length arr) in
  let final := if k <? 0 then Z.max (len + k) 0 else Z.min k len in
  firstn (Z.to_nat final) arr.

(** [arr.sort(comparefn)].  The comparator's result [v] orders [a]
    after [b] exactly when [v > 0]; a [NaN] result counts as [+0]
    (SortCompare).  The sort is stable (ECMAScript 2019); for a
    consistent comparator every stable sort returns the same array,
    here the one insertion builds. *)
Section Sort.
Context {A : Type}.
Variable comparefn : A -> A -> number.

Definition after (a b : A) : bool :=
  PrimFloat.ltb 0%float (comparefn a b).

Fixpoint insert (a : A) (sorted : list A) : list A :=
  match sorted with
  | [] => [a]
  | b :: rest => if after a b then b :: insert a rest else a :: b :: rest
  end.

Fixpoint sort (arr : list A) : list A :=
  match arr with
  | [] => []
  | a :: rest => insert a (sort rest)
  end.
End Sort.

End JS.

(** ** The vector index ([FAISS] in [server.js]) *)

Record item := { vector : list JS.number; docId : Z }.

Record hit := { hit_docId : Z; score : JS.number }.

Definition sum_of_squares (vec : list JS.number) : JS.number :=
  JS.reduce (fun sum val _ => (sum + val * val)%float) vec 0%float.

(** [cosineSimilarity] as written inside [FAISS.search] of [server.js]:
    no test on the magnitudes.  The square [val ** 2] is taken to be the
    correctly rounded product [val * val]. *)
Definition cosineSimilarity (vecA vecB : list JS.number) : JS.number :=
  let dotProduct :=
    JS.reduce (fun sum val i => (sum + val * JS.get vecB i)%float) vecA 0%float in
  let magnitudeA := PrimFloat.sqrt (sum_of_squares vecA) in
  let magnitudeB := PrimFloat.sqrt (sum_of_squares vecB) in
  (dotProduct / (magnitudeA * magnitudeB))%float.

(** The comparator handed to [sort]: [(a, b) => b.score - a.score]. *)
Definition by_score (a b : hit) : JS.number := (score b - score a)%float.

Module FAISS.

Definition index := list item.

(** [FAISS.add(vector, docId)]: push at the end. *)
Definition add (idx : index) (vec : list JS.number) (id : Z) : index :=
  idx ++ [{| vector := vec; docId := id |}].

(** The scoring pass of [FAISS.search], for a similarity function. *)
Definition scored (sim : list JS.number -> list JS.number -> JS.number)
           (idx : index) (queryVector : list JS.number) : list hit :=
  map (fun it => {| hit_docId := docId it;
                    score := sim queryVector (vector it) |}) idx.

Definition search_with (sim : list JS.number -> list JS.number -> JS.number)
           (idx : index) (queryVector : list JS.number) (k : Z) : list hit :=
  match idx with
  | [] => []
  | _ => JS.slice0 (JS.sort by_score (scored sim idx queryVector)) k
  end.

Definition search := search_with cosineSimilarity.

End FAISS.

(** ** The stored encoding of a vector ([Float32Array] and its buffer) *)

Module Float32.

(** [Math.fround] on the specification side: a binary64 value rounded
    to nearest-even into binary32 (24 bits of precision, [emax] 128). *)
Definition round (x : spec_float) : spec_float :=
  match x with
  | S754_finite s m e => binary_round 24 128 s m e
  | _ => x
  end.

(** The 32-bit pattern of a binary32 value.  [NaN] is stored as the
    quiet NaN [0x7fc00000]. *)
Definition sign_bit (s : bool) : Z := if s then 2 ^ 31 else 0.

Definition bits (x : spec_float) : Z :=
  match x with
  | S754_zero s => sign_bit s
  | S754_infinity s => sign_bit s + 255 * 2 ^ 23
  | S754_nan => 255 * 2 ^ 23 + 2 ^ 22
  | S754_finite s m e =>
      sign_bit s +
      (if Z.pos m <? 2 ^ 23 then Z.pos m
       else (e + 150) * 2 ^ 23 + (Z.pos m - 2 ^ 23))
  end.

Definition of_bits (w : Z) : spec_float :=
  let s := Z.testbit w 31 in
  let E := (w / 2 ^ 23) mod 256 in
  let M := w mod 2 ^ 23 in
  if E =? 0 then
    match M with
    | Z.pos m => S754_finite s m (-149)
    | _ => S754_zero s
    end
  else if E =? 255 then
    (if M =? 0 then S754_infinity s else S754_nan)
  else
    match M + 2 ^ 23 with
    | Z.pos m => S754_finite s m (E - 150)
    | _ => S754_nan
    end.

(** A binary32 value read as a JavaScript number: every binary32 value
    is a binary64 value, so [binary_round] only renormalises. *)
Definition widen (x : spec_float) : JS.number :=
  SF2Prim match x with
          | S754_finite s m e => binary_round prec emax s m e
          | _ => x
          end.

(** [Math.fround]: the nearest binary32 value, as a number. *)
Definition fround (x : JS.number) : JS.number :=
  widen (round (Prim2SF x)).

(** Bytes of the buffer, little-endian as on every platform Node runs on. *)
Definition byte_of_Z (z : Z) : byte :=
  match Byte.of_N (Z.to_N (z mod 256)) with
  | Some b => b
  | None => Byte.x00
  end.

Definition Z_of_byte (b : byte) : Z := Z.of_N (Byte.to_N b).

Definition word_bytes (w : Z) : list byte :=
  [byte_of_Z w; byte_of_Z (w / 2 ^ 8); byte_of_Z (w / 2 ^ 16); byte_of_Z (w / 2 ^ 24)].

Definition bytes_word (b0 b1 b2 b3 : byte) : Z :=
  Z_of_byte b0 + 2 ^ 8 * Z_of_byte b1 + 2 ^ 16 * Z_of_byte b2 + 2 ^ 24 * Z_of_byte b3.

(** [Buffer.from(new Float32Array(vector).buffer)] *)
Definition to_buffer (vec : list JS.number) : list byte :=
  flat_map (fun x => word_bytes (bits (round (Prim2SF x)))) vec.

(** [Array.from(new Float32Array(blob.buffer))]: [None] is the
    [RangeError] raised when the byte length is not a multiple of 4. *)
Fixpoint of_buffer (buf : list byte) : option (list JS.number) :=
  match buf with
  | [] => Some []
  | b0 :: b1 :: b2 :: b3 :: rest =>
      option_map (cons (widen (of_bits (bytes_word b0 b1 b2 b3)))) (of_buffer rest)
  | _ => None
  end.

End Float32.

(** ** The document store (table [documents] of [vectors.db]) *)

Record row := { id : Z; content : string; vector_blob : list byte }.

(** The table in rowid order, with the counter [AUTOINCREMENT] keeps in
    [sqlite_sequence]: the largest rowid an insert has ever taken. *)
Record database := { documents : list row; sqlite_sequence : Z }.

(** What the callback of [db.run] reads from [this]: [Inserted lastID]
    when [this.changes > 0], [Ignored] when the statement changed no row. *)
Inductive run_result := Inserted (lastID : Z) | Ignored.

Definition has_content (c : string) (rows : list row) : bool :=
  existsb (fun r => String.eqb (content r) c) rows.

Definition max_rowid (rows : list row) : Z :=
  fold_right (fun r acc => Z.max (id r) acc) 0 rows.

(** [INSERT OR IGNORE INTO documents (content, vector) VALUES (?, ?)]:
    the [UNIQUE] constraint on [content] turns a second insert of the
    same text into a statement that changes no row.  The rowid is taken
    before the constraint is tested, and [AUTOINCREMENT] writes it to
    [sqlite_sequence] at the end of the statement either way: an
    ignored insert uses up an id. *)
Definition insert_or_ignore (d : database) (c : string) (blob : list byte)
  : database * run_result :=
  let rowid := Z.max (sqlite_sequence d) (max_rowid (documents d)) + 1 in
  if has_content c (documents d)
  then ({| documents := documents d; sqlite_sequence := rowid |}, Ignored)
  else
    ({| documents := documents d ++ [{| id := rowid; content := c; vector_blob := blob |}];
        sqlite_sequence := rowid |},
     Inserted rowid).

(** ** Calls that leave the process *)

(** How a promise of the OpenAI client settles. *)
Inductive outcome (A : Type) := Fulfilled (a : A) | Rejected.
Arguments Fulfilled {A} a.
Arguments Rejected {A}.

(** How a call of the sources' own functions completes. *)
Inductive completion (A : Type) := Return (a : A) | Throw (message : string).
Arguments Return {A} a.
Arguments Throw {A} message.

(** The requests a handler sends out, in order. *)
Inductive call :=
| EmbeddingsCreate (input : string)
| ChatCompletionsCreate (prompt : string).

Definition nat_to_string (n : nat) : string :=
  DecimalString.NilZero.string_of_uint (Nat.to_uint n).

Module embed.

(** [getEmbeddings] of [embed.js]: the client's failure is rethrown. *)
Definition getEmbeddings (api : outcome (list JS.number))
  : completion (list JS.number) :=
  match api with
  | Fulfilled embedding => Return embedding
  | Rejected => Throw "Error calling OpenAI API getEmbeddings"
  end.

Definition template (context question : string) : string :=
  ("Answer the question based on the context below. If the question can't be answered based on the context, make a reasonable guess."
     ++ String "010" " Context: " ++ context
     ++ String "010" "Question: " ++ question
     ++ String "010" "Answer:")%string.

(** [getAnswer] of [embed.js].  The length test throws; a failure of
    the client is caught and logged, and the function then falls off
    its end: it returns [undefined], here [None]. *)
Definition getAnswer (context question : string) (api : outcome string)
  : completion (option string) * list call :=
  let prompt := template context question in
  if 10000 <? Z.of_nat (String.length prompt) then
    (Throw ("Prompt is too long: " ++ nat_to_string (String.length prompt) ++ " characters"), [])
  else
    (match api with
     | Fulfilled answer => Return (Some answer)
     | Rejected => Return None
     end, [ChatCompletionsCreate prompt]).

End embed.

(** ** Requests and responses *)

Record ranked := { r_docId : Z; r_content : string; r_score : JS.number }.

Inductive body :=
| Error (error : string) (details : option string)
| Message (message : string) (docId : option Z)
| SearchReply (prompt : string) (results : list ranked) (answer : option string)
| AnswerReply (query : string) (answer : string).

Record response := { status : Z; json : body }.

(** The process state the handlers share: the database and [FAISS.index]. *)
Record state := { db : database; index : FAISS.index }.

(** What one run of a handler leaves behind: the response it sent (if
    it sent one), the state, the outside calls it made, and the error
    nothing caught, if there was one. *)
Record reply := {
  sent : option response;
  after : state;
  calls : list call;
  uncaught : option string
}.

Definition respond (code : Z) (b : body) (s : state) (cs : list call) : reply :=
  {| sent := Some {| status := code; json := b |}; after := s; calls := cs;
     uncaught := None |}.

(** An exception thrown in a callback of the database, or a rejected
    promise without a handler, is an uncaught error, and Node ends the
    process on it (for rejections, since version 15): no response is
    sent, and [FAISS.index], which lives in the memory of the process,
    is gone.  The database file stays as it is. *)
Definition crash (e : string) (s : state) (cs : list call) : reply :=
  {| sent := None; after := {| db := db s; index := [] |}; calls := cs;
     uncaught := Some e |}.

(** [!value] for a request field that is a string or missing. *)
Definition missing (field : option string) : bool :=
  match field with
  | None => true
  | Some text => negb (JS.truthy_string text)
  end.

Definition text_of (field : option string) : string :=
  match field with Some text => text | None => "undefined" end.

(** [lines.map((r, i) => `${i + 1}. ${r}`)], from index [i]. *)
Fixpoint numbered (i : nat) (lines : list string) : list string :=
  match lines with
  | [] => []
  | l :: rest => (nat_to_string (S i) ++ ". " ++ l)%string :: numbered (S i) rest
  end.

Definition join_lines (lines : list string) : string :=
  String.concat (String "010" "") lines.

Module server.

(** [synchronizeFAISS]: every row of [SELECT id, vector FROM documents]
    is decoded and pushed on [FAISS.index].  A blob whose length is no
    multiple of 4 raises inside the database callback, where nothing
    catches it. *)
Fixpoint add_rows (rows : list row) (idx : FAISS.index) : completion FAISS.index :=
  match rows with
  | [] => Return idx
  | r :: rest =>
      match Float32.of_buffer (vector_blob r) with
      | Some vec => add_rows rest (FAISS.add idx vec (id r))
      | None => Throw "RangeError: byte length of Float32Array should be a multiple of 4"
      end
  end.

Definition synchronizeFAISS (s : state) (db_err : bool) : completion state :=
  if db_err then Return s
  else
    match add_rows (documents (db s)) (index s) with
    | Return idx => Return {| db := db s; index := idx |}
    | Throw e => Throw e
    end.

(** [app.post('/add')] *)
Definition post_add (s : state) (content : option string)
           (api : outcome (list JS.number)) (db_err : bool) : reply :=
  if missing content then respond 400 (Error "Content is required" None) s []
  else
    let sent_out := [EmbeddingsCreate (text_of content)] in
    match embed.getEmbeddings api with
    | Throw _ => respond 500 (Error "Error processing document." None) s sent_out
    | Return vec =>
        let vectorBuffer := Float32.to_buffer vec in
        if db_err then respond 500 (Error "Error adding document." None) s sent_out
        else
          match insert_or_ignore (db s) (text_of content) vectorBuffer with
          | (d, Inserted lastID) =>
              respond 200 (Message "Document added." (Some lastID))
                      {| db := d; index := FAISS.add (index s) vec lastID |} sent_out
          | (d, Ignored) =>
              respond 200 (Message "Document already exists." None)
                      {| db := d; index := index s |} sent_out
          end
    end.

(** [cosineSimilarity] as written inside the callback of [/search]:
    a zero (or [NaN]) magnitude gives [0]. *)
Definition cosineSimilarity (vecA vecB : list JS.number) : JS.number :=
  let dotProduct :=
    JS.reduce (fun sum val i => (sum + val * JS.get vecB i)%float) vecA 0%float in
  let magnitudeA := PrimFloat.sqrt (sum_of_squares vecA) in
  let magnitudeB := PrimFloat.sqrt (sum_of_squares vecB) in
  if JS.truthy magnitudeA && JS.truthy magnitudeB
  then (dotProduct / (magnitudeA * magnitudeB))%float
  else 0%float.

(** The [rows.forEach] of [/search]: decode, score, push. *)
Fixpoint score_rows (queryVector : list JS.number) (rows : list row)
  : completion (list ranked) :=
  match rows with
  | [] => Return []
  | r :: rest =>
      match Float32.of_buffer (vector_blob r) with
      | None => Throw "RangeError: byte length of Float32Array should be a multiple of 4"
      | Some vec =>
          match score_rows queryVector rest with
          | Return results =>
              Return ({| r_docId := id r; r_content := content r;
                         r_score := cosineSimilarity queryVector vec |} :: results)
          | Throw e => Throw e
          end
      end
  end.

Definition by_score (a b : ranked) : JS.number := (r_score b - r_score a)%float.

Definition make_prompt (query : string) (topResults : list ranked) : string :=
  ("Query: " ++ query ++ String "010" "Documents:" ++ String "010" ""
     ++ join_lines (numbered 0 (map r_content topResults)))%string.

(** [app.post('/search')]: [k] defaults to 5.  The database callback
    runs outside the [try]: what is thrown there, and a rejection of
    [getAnswer(prompt)], which has no handler, is caught by nothing.
    [getAnswer] receives the prompt as its context and no question. *)
Definition post_search (s : state) (query : option string) (k : option Z)
           (api : outcome (list JS.number)) (db_err : bool)
           (chat : outcome string) : reply :=
  let k := match k with Some n => n | None => 5 end in
  if missing query then respond 400 (Error "Query is required" None) s []
  else
    let sent_out := [EmbeddingsCreate (text_of query)] in
    match embed.getEmbeddings api with
    | Throw e => respond 500 (Error "Error processing query." (Some e)) s sent_out
    | Return queryVector =>
        if db_err then respond 500 (Error "Error fetching documents." None) s sent_out
        else
          match score_rows queryVector (documents (db s)) with
          | Throw e => crash e s sent_out
          | Return results =>
              let topResults := JS.slice0 (JS.sort by_score results) k in
              let prompt := make_prompt (text_of query) topResults in
              match embed.getAnswer prompt "undefined" chat with
              | (Throw e, cs) => crash e s (sent_out ++ cs)
              | (Return answer, cs) =>
                  respond 200 (SearchReply prompt topResults answer) s (sent_out ++ cs)
              end
          end
    end.

End server.

Module embedArray.

(** [getEmbeddings] of [embedArray.js] *)
Definition getEmbeddings (api : outcome (list JS.number))
  : completion (list JS.number) :=
  match api with
  | Fulfilled embedding => Return embedding
  | Rejected => Throw "Error retrieving embeddings"
  end.

Definition template (context question : string) : string :=
  ("Answer the question based on the context below. If the question can't be answered based on the context, make a reasonable guess."
     ++ String "010" "Context: " ++ context
     ++ String "010" "Question: " ++ question
     ++ String "010" "Answer:")%string.

(** [getAnswer] of [embedArray.js]: a failure of the client is
    rethrown. *)
Definition getAnswer (context question : string) (api : outcome string)
  : completion string * list call :=
  let prompt := template context question in
  if 10000 <? Z.of_nat (String.length prompt) then
    (Throw ("Prompt is too long: " ++ nat_to_string (String.length prompt) ++ " characters"), [])
  else
    (match api with
     | Fulfilled answer => Return answer
     | Rejected => Throw "Error generating answer from OpenAI"
     end, [ChatCompletionsCreate prompt]).

End embedArray.

Module serverArray.

Definition ALENGTH : Z := 5.

Section MathJS.
(** [math.dot] and [math.norm(_, 2)] of the mathjs package, which
    is no part of this repository.  [math.dot] raises on arrays of
    unequal or zero length. *)
Variable math_dot : list JS.number -> list JS.number -> completion JS.number.
Variable math_norm2 : list JS.number -> JS.number.

(** [FAISS.add]: only the first [ALENGTH] components are kept. *)
Definition add (idx : FAISS.index) (vec : list JS.number) (id : Z) : FAISS.index :=
  idx ++ [{| vector := JS.slice0 vec ALENGTH; docId := id |}].

Definition cosineSimilarity (vecA vecB : list JS.number) : completion JS.number :=
  match math_dot vecA vecB with
  | Throw e => Throw e
  | Return dotProduct =>
      let magnitudeA := math_norm2 vecA in
      let magnitudeB := math_norm2 vecB in
      Return (dotProduct / (magnitudeA * magnitudeB))%float
  end.

Fixpoint score_items (idx : FAISS.index) (queryVector : list JS.number)
  : completion (list hit) :=
  match idx with
  | [] => Return []
  | it :: rest =>
      match cosineSimilarity (vector it) queryVector with
      | Throw e => Throw e
      | Return sc =>
          match score_items rest queryVector with
          | Throw e => Throw e
          | Return results => Return ({| hit_docId := docId it; score := sc |} :: results)
          end
      end
  end.

(** [FAISS.search] *)
Definition search (idx : FAISS.index) (queryVector : list JS.number) (k : Z)
  : completion (list hit) :=
  match idx with
  | [] => Return []
  | _ =>
      match score_items idx queryVector with
      | Throw e => Throw e
      | Return results => Return (JS.slice0 (JS.sort by_score results) k)
      end
  end.

Fixpoint add_rows (rows : list row) (idx : FAISS.index) : completion FAISS.index :=
  match rows with
  | [] => Return idx
  | r :: rest =>
      match Float32.of_buffer (vector_blob r) with
      | Some vec => add_rows rest (add idx (JS.slice0 vec ALENGTH) (id r))
      | None => Throw "RangeError: byte length of Float32Array should be a multiple of 4"
      end
  end.

(** [synchronizeFAISS]: a count first, then the same loop as in
    [server.js]. *)
Definition synchronizeFAISS (s : state) (count_err all_err : bool) : completion state :=
  if count_err then Return s
  else if Z.of_nat (List.length (documents (db s))) =? 0 then Return s
  else if all_err then Return s
  else
    match add_rows (documents (db s)) (index s) with
    | Return idx => Return {| db := db s; index := idx |}
    | Throw e => Throw e
    end.

(** [app.post('/add')] *)
Definition post_add (s : state) (content : option string)
           (api : outcome (list JS.number)) (db_err : bool) : reply :=
  if missing content then respond 400 (Error "Content is required" None) s []
  else
    let sent_out := [EmbeddingsCreate (text_of content)] in
    match embedArray.getEmbeddings api with
    | Throw _ => respond 500 (Error "Error processing document." None) s sent_out
    | Return vec =>
        let vectorBuffer := Float32.to_buffer vec in
        if db_err then respond 500 (Error "Error adding document." None) s sent_out
        else
          match insert_or_ignore (db s) (text_of content) vectorBuffer with
          | (d, Inserted lastID) =>
              respond 200 (Message "Document added." (Some lastID))
                      {| db := d; index := add (index s) vec lastID |} sent_out
          | (d, Ignored) =>
              respond 200 (Message "Document already exists." None)
                      {| db := d; index := index s |} sent_out
          end
    end.

(** [SELECT id, content FROM documents WHERE id IN (...)] *)
Definition select_in (d : database) (ids : list Z) : list row :=
  filter (fun r => existsb (Z.eqb (id r)) ids) (documents d).

(** [topDocuments.find((doc) => doc.id === result.docId)], then the
    content or [null]. *)
Definition content_of (topDocuments : list row) (h : hit) : option string :=
  option_map content (find (fun doc => id doc =? hit_docId h) topDocuments).

Definition make_context (topDocuments : list row) (faissResults : list hit) : string :=
  let topResults := map (content_of topDocuments) faissResults in
  let kept := flat_map (fun c => match c with
                                 | Some text => if JS.truthy_string text then [text] else []
                                 | None => []
                                 end) topResults in
  join_lines (numbered 0 kept).

(** [app.post('/search')]: [k] defaults to 1; everything after the
    guard runs inside the [try]. *)
Definition post_search (s : state) (query : option string) (k : option Z)
           (api : outcome (list JS.number)) (db_err : option string)
           (chat : outcome string) : reply :=
  let k := match k with Some n => n | None => 1 end in
  let failed e cs := respond 500 (Error "Error processing query." (Some e)) s cs in
  if missing query then respond 400 (Error "Query is required" None) s []
  else
    let sent_out := [EmbeddingsCreate (text_of query)] in
    match embedArray.getEmbeddings api with
    | Throw e => failed e sent_out
    | Return queryVector =>
        let qVec := JS.slice0 queryVector ALENGTH in
        match search (index s) qVec k with
        | Throw e => failed e sent_out
        | Return faissResults =>
            match db_err with
            | Some e => failed e sent_out
            | None =>
                let topDocuments := select_in (db s) (map hit_docId faissResults) in
                let context := make_context topDocuments faissResults in
                match embedArray.getAnswer context (text_of query) chat with
                | (Throw e, cs) => failed e (sent_out ++ cs)
                | (Return answer, cs) =>
                    respond 200 (AnswerReply (text_of query) answer) s (sent_out ++ cs)
                end
            end
        end
    end.
End MathJS.

End serverArray.

(** ** The other routes of the servers, and the token helpers of
       [embed.js] *)

(** How a promise of [fs] or a statement of the database settles; a
    failure carries the [message] of its error. *)
Inductive settled (A : Type) := Resolved (a : A) | Failed (message : string).
Arguments Resolved {A} a.
Arguments Failed {A} message.

Module Buffer.

(** [ToUint8]: the integer part of the number, modulo 256; [NaN], the
    zeros and the infinities give 0. *)
Definition to_uint8 (x : JS.number) : byte :=
  match Prim2SF x with
  | S754_finite s m e =>
      Float32.byte_of_Z
        (cond_Zopp s (if 0 <=? e then Z.pos m * 2 ^ e else Z.pos m / 2 ^ (- e)))
  | _ => Byte.x00
  end.

(** [Buffer.from(array)]: one byte per entry of the array. *)
Definition from (arr : list JS.number) : list byte := map to_uint8 arr.

End Buffer.

(** The bodies of [/count-documents] and [/load-documents]. *)
Record loaded := { loaded_docId : Z; loaded_file : string }.

Inductive admin_body :=
| CountReply (count : Z)
| LoadReply (message : string) (results : list loaded)
| ErrorReply (error : string) (details : option string).

Record admin_response := { admin_status : Z; admin_json : admin_body }.

(** One entry of the [documents] folder, with how reading it, embedding
    it and inserting it settle. *)
Record folder_file := {
  file : string;
  read : settled string;
  embedded : outcome (list JS.number);
  run_err : option string
}.

Record load_reply := {
  load_sent : admin_response;
  load_after : state;
  load_calls : list call
}.

Module routes.

(** [app.get('/count-documents')] of [serverArray.js]; the statement
    that counts in [server.js] is the same. *)
Definition count_documents (s : state) (get_err : bool) : admin_response :=
  if get_err
  then {| admin_status := 500; admin_json := ErrorReply "Error retrieving count." None |}
  else {| admin_status := 200;
          admin_json := CountReply (Z.of_nat (List.length (documents (db s)))) |}.

(** The loop of [app.get('/load-documents')] in [server.js]: read,
    embed, [INSERT OR IGNORE] with [Buffer.from(vector)], and on a new
    row [FAISS.add] and [results.push].  The first failure leaves the
    loop with what was done so far. *)
Fixpoint load_files (files : list folder_file) (s : state) (results : list loaded)
         (cs : list call) : completion (list loaded) * state * list call :=
  match files with
  | [] => (Return results, s, cs)
  | f :: rest =>
      match read f with
      | Failed e => (Throw e, s, cs)
      | Resolved text =>
          let cs := cs ++ [EmbeddingsCreate text] in
          match embed.getEmbeddings (embedded f) with
          | Throw e => (Throw e, s, cs)
          | Return vec =>
              match run_err f with
              | Some e => (Throw e, s, cs)
              | None =>
                  match insert_or_ignore (db s) text (Buffer.from vec) with
                  | (d, Inserted lastID) =>
                      load_files rest
                                 {| db := d; index := FAISS.add (index s) vec lastID |}
                                 (results ++ [{| loaded_docId := lastID;
                                                 loaded_file := file f |}])
                                 cs
                  | (d, Ignored) =>
                      load_files rest {| db := d; index := index s |} results cs
                  end
              end
          end
      end
  end.

(** [app.get('/load-documents')] of [server.js]. *)
Definition load_documents (s : state) (dir : settled (list folder_file)) : load_reply :=
  let failed e s' cs :=
    {| load_sent := {| admin_status := 500;
                       admin_json := ErrorReply "Error loading documents." (Some e) |};
       load_after := s'; load_calls := cs |} in
  match dir with
  | Failed e => failed e s []
  | Resolved files =>
      match load_files files s [] [] with
      | (Return results, s', cs) =>
          {| load_sent :=
               {| admin_status := 200;
                  admin_json :=
                    LoadReply ("Loaded " ++ nat_to_string (List.length results)
                                         ++ " documents.") results |};
             load_after := s'; load_calls := cs |}
      | (Throw e, s', cs) => failed e s' cs
      end
  end.

End routes.

Module tokens.

(** [String.prototype.trim] on strings of code units below 256: the
    white space and line terminators among them are the code units 9 to
    13, 32 and 160. *)
Definition is_space (c : ascii) : bool :=
  let n := nat_of_ascii c in
  ((9 <=? n) && (n <=? 13) || (n =? 32) || (n =? 160))%nat.

Fixpoint trim_start (s : string) : string :=
  match s with
  | String c rest => if is_space c then trim_start rest else s
  | EmptyString => EmptyString
  end.

Fixpoint trim_end (s : string) : string :=
  match s with
  | String c rest =>
      match trim_end rest with
      | EmptyString => if is_space c then EmptyString else String c EmptyString
      | kept => String c kept
      end
  | EmptyString => EmptyString
  end.

Definition trim (s : string) : string := trim_end (trim_start s).

(** [s.split(" ")]: the pieces between the spaces; the empty string
    gives one empty piece. *)
Fixpoint split_spaces (s : string) : list string :=
  match s with
  | EmptyString => [EmptyString]
  | String c rest =>
      if Ascii.eqb c " "
      then EmptyString :: split_spaces rest
      else match split_spaces rest with
           | piece :: pieces => String c piece :: pieces
           | [] => [String c EmptyString]
           end
  end.

(** [arr.join(" ")] *)
Definition join_spaces (pieces : list string) : string := String.concat " " pieces.

Definition promptStart : string :=
  "Given the following tokenized text, identify the most relevant tokens:"
    ++ String "010" (String "010" "").

Definition promptEnd : string :=
  String "010" (String "010" "Relevant tokens:").

(** The prompt [getRelevantTokens] hands to [completions.create]; the
    tokens are a string or an array of strings. *)
Definition prompt_of (tokens : string + list string) : string :=
  let tokenString := match tokens with inl text => text | inr arr => join_spaces arr end in
  let availableTokens := (4096 - String.length promptStart - String.length promptEnd)%nat in
  if (availableTokens <? String.length tokenString)%nat
  then promptStart ++ String.substring 0 availableTokens tokenString ++ promptEnd
  else promptStart ++ tokenString ++ promptEnd.

(** [getRelevantTokens] of [embed.js]: the failure of the client is
    rethrown; the text of the first choice is trimmed and split. *)
Definition getRelevantTokens (tokens : string + list string) (api : outcome string)
  : completion (list string) :=
  match api with
  | Rejected => Throw "Error calling OpenAI API getRelevantTokens completions.create"
  | Fulfilled text => Return (split_spaces (trim text))
  end.

Record tokenized := { url : string; page_tokens : string + list string }.

Record csv_record := { record_url : string; relevantTokens : string }.

(** [saveRelevantTokensToCsv]: one call per content, in order; the
    records go to [csvWriter.writeRecords] once, after the loop.  Each
    content comes with how its call settles; the result is what is
    written. *)
Fixpoint collect_records (contents : list (tokenized * outcome string))
  : completion (list csv_record) :=
  match contents with
  | [] => Return []
  | (content, api) :: rest =>
      match getRelevantTokens (page_tokens content) api with
      | Throw e => Throw e
      | Return relevant =>
          match collect_records rest with
          | Throw e => Throw e
          | Return records =>
              Return ({| record_url := url content;
                         relevantTokens := join_spaces relevant |} :: records)
          end
      end
  end.

Definition saveRelevantTokensToCsv (contents : list (tokenized * outcome string))
  : completion (list csv_record) :=
  collect_records contents.

End tokens.

(** * The vocabulary of the properties *)

(** ** States and fixtures *)

Definition empty_state : state :=
  {| db := {| documents := []; sqlite_sequence := 0 |}; index := [] |}.

(** The constraints of the schema ([UNIQUE] content, primary key [id])
    together with an index that holds one entry per stored row, in
    rowid order: the states reached after the start-up synchronisation
    and any number of [/add] requests. *)
Definition well_formed (s : state) : Prop :=
  NoDup (map content (documents (db s)))
  /\ NoDup (map id (documents (db s)))
  /\ map docId (index s) = map id (documents (db s)).

(** The table as the schema keeps it and as a scan returns it: the rows
    by ascending rowid, the contents unique. *)
Definition rowid_order (d : database) : Prop :=
  StronglySorted Z.lt (map id (documents d))
  /\ NoDup (map content (documents d)).

(** The same with the index: its entries by ascending id, each the id
    of a row. *)
Definition in_rowid_order (s : state) : Prop :=
  rowid_order (db s)
  /\ StronglySorted Z.lt (map docId (index s))
  /\ incl (map docId (index s)) (map id (documents (db s))).

Inductive program := server_js | serverArray_js.

(** The states a process of either program is in between two requests.
    It starts with an empty index over the table it finds and
    synchronises; an error of the database there leaves the index
    empty, and a blob that raises ends the process before it serves
    anything.  After that every request is one of the handlers, and a
    handler that ends in an uncaught error ends the process. *)
Inductive served : program -> state -> Prop :=
| served_start (d : database) (db_err : bool) (s : state) :
    rowid_order d ->
    server.synchronizeFAISS {| db := d; index := [] |} db_err = Return s ->
    served server_js s
| served_add (s : state) (field : option string)
             (api : outcome (list JS.number)) (db_err : bool) :
    served server_js s ->
    served server_js (after (server.post_add s field api db_err))
| served_load (s : state) (dir : settled (list folder_file)) :
    served server_js s ->
    served server_js (load_after (routes.load_documents s dir))
| served_search (s : state) (query : option string) (k : option Z)
                (api : outcome (list JS.number)) (db_err : bool)
                (chat : outcome string) :
    served server_js s ->
    uncaught (server.post_search s query k api db_err chat) = None ->
    served server_js (after (server.post_search s query k api db_err chat))
| served_start_array (d : database) (count_err all_err : bool) (s : state) :
    rowid_order d ->
    serverArray.synchronizeFAISS {| db := d; index := [] |} count_err all_err = Return s ->
    served serverArray_js s
| served_add_array (s : state) (field : option string)
                   (api : outcome (list JS.number)) (db_err : bool) :
    served serverArray_js s ->
    served serverArray_js (after (serverArray.post_add s field api db_err))
| served_search_array
    (math_dot : list JS.number -> list JS.number -> completion JS.number)
    (math_norm2 : list JS.number -> JS.number)
    (s : state) (query : option string) (k : option Z)
    (api : outcome (list JS.number)) (db_err : option string)
    (chat : outcome string) :
    served serverArray_js s ->
    served serverArray_js
           (after (serverArray.post_search math_dot math_norm2 s query k api db_err chat)).



(** ** Documents as the synchronisation sees them *)

(** A document as [/add] hands it to the database and to the index. *)
Record document := { doc_id : Z; doc_content : string; doc_vector : list JS.number }.

Definition stored (d : document) : row :=
  {| id := doc_id d; content := doc_content d;
     vector_blob := Float32.to_buffer (doc_vector d) |}.

(** The index entry the synchronisation of [server.js] builds from a row. *)
Definition resynced (d : document) : item :=
  {| vector := map Float32.fround (doc_vector d); docId := doc_id d |}.

(** The same in [serverArray.js], which cuts the vector twice. *)
Definition resynced_cut (d : document) : item :=
  {| vector := JS.slice0 (JS.slice0 (map Float32.fround (doc_vector d))
                                    serverArray.ALENGTH) serverArray.ALENGTH;
     docId := doc_id d |}.

(** ** The order of numbers *)

(** The value of a float in units of [2 ^ emin]; the infinities sit
    just beyond the finite values. *)
Definition val (prec emax : Z) (x : spec_float) : Z :=
  match x with
  | S754_zero _ => 0
  | S754_infinity s => cond_Zopp s (2 ^ (emax - SpecFloat.emin prec emax))
  | S754_nan => 0
  | S754_finite s m e => cond_Zopp s (Z.pos m * 2 ^ (e - SpecFloat.emin prec emax))
  end.

Definition not_nan (x : spec_float) : bool :=
  match x with S754_nan => false | _ => true end.

(** A number's place on the line of integers: its value in units of the
    smallest subnormal. *)
Definition key (x : JS.number) : Z := val prec emax (Prim2SF x).


(** No score is [NaN]. *)
Definition numeric {A : Type} (f : A -> JS.number) (l : list A) : Prop :=
  Forall (fun a => PrimFloat.is_nan (f a) = false) l.

(** Non-increasing scores; and the same with ties in ascending id. *)
Definition ge_key {A : Type} (f : A -> JS.number) (a b : A) : Prop :=
  key (f b) <= key (f a).

Definition lex_key {A : Type} (f : A -> JS.number) (ident : A -> Z) (a b : A) : Prop :=
  key (f b) < key (f a) \/ (key (f a) = key (f b) /\ ident a < ident b).

Definition zero_or_nan (x : spec_float) : bool :=
  match x with S754_zero _ | S754_nan => true | _ => false end.

(** A mantissa with at least as many digits as the format asks for at
    its exponent. *)
Definition fits (prec emax m e : Z) : Prop :=
  e <= SpecFloat.fexp prec emax (Zdigits2 m + e).

(** The binary32 values among the specification floats: a mantissa of
    at most 24 bits, an exponent between -149 and 104, and a mantissa of
    exactly 24 bits unless the exponent is -149 (subnormal numbers). *)
Definition canonical32 (x : spec_float) : Prop :=
  match x with
  | S754_finite _ m e =>
      Z.pos m < 2 ^ 24 /\ -149 <= e <= 104 /\ (-149 < e -> 2 ^ 23 <= Z.pos m)
  | _ => True
  end.

(** ** Examples *)

Definition two_docs : FAISS.index :=
  [ {| vector := [1; 0]%float; docId := 1 |};
    {| vector := [0; 1]%float; docId := 2 |} ].

Definition same_vector_twice : FAISS.index :=
  [ {| vector := [1; 0]%float; docId := 2 |};
    {| vector := [1; 0]%float; docId := 1 |} ].

Definition cats_and_dogs : database :=
  {| documents :=
       [ {| id := 1; content := "cats are mammals";
            vector_blob := Float32.to_buffer [1; 0]%float |};
         {| id := 2; content := "dogs bark";
            vector_blob := Float32.to_buffer [0; 1]%float |} ];
     sqlite_sequence := 2 |}.

(** The double nearest to [0.1], and the binary32 value nearest to it. *)
Definition one_tenth : JS.number := 0x1.999999999999ap-4%float.
Definition one_tenth_f32 : JS.number := 0x1.99999ap-4%float.

(** * Properties *)

(** ** Arrays: [sort] and [slice] *)

Section SortFacts.
Context {A : Type}.
Variable comparefn : A -> A -> JS.number.

Lemma insert_perm (a : A) (l : list A) :
  Permutation (JS.insert comparefn a l) (a :: l).
Proof.
  induction l as [|b l IH]; simpl.
  - apply Permutation_refl.
  - destruct (JS.after comparefn a b).
    + apply Permutation_trans with (b :: a :: l).
      * now apply perm_skip.
      * apply perm_swap.
    + apply Permutation_refl.
Qed.

Lemma sort_perm (l : list A) : Permutation (JS.sort comparefn l) l.
Proof.
  induction l as [|a l IH]; simpl.
  - apply perm_nil.
  - apply Permutation_trans with (a :: JS.sort comparefn l).
    + apply insert_perm.
    + now apply perm_skip.
Qed.

Lemma sort_length (l : list A) :
  List.length (JS.sort comparefn l) = List.length l.
Proof. apply Permutation_length, sort_perm. Qed.
End SortFacts.

Lemma slice0_zero {A : Type} (l : list A) : JS.slice0 l 0 = [].
Proof.
  unfold JS.slice0. change (0 <? 0) with false. cbv iota.
  replace (Z.min 0 (Z.of_nat (List.length l))) with 0 by lia.
  reflexivity.
Qed.

Lemma slice0_all {A : Type} (l : list A) (k : Z) :
  Z.of_nat (List.length l) <= k -> JS.slice0 l k = l.
Proof.
  intros Hk. unfold JS.slice0.
  destruct (Z.ltb_spec k 0) as [Hneg|_]; [lia|].
  rewrite Z.min_r by exact Hk. rewrite Nat2Z.id. apply firstn_all.
Qed.

Lemma slice0_neg {A : Type} (l : list A) (p : positive) :
  JS.slice0 l (Z.neg p) = firstn (List.length l - Pos.to_nat p) l.
Proof.
  unfold JS.slice0.
  change (Z.neg p <? 0) with true. cbv iota. f_equal.
  rewrite <- Pos2Z.opp_pos, <- (positive_nat_Z p).
  generalize (Pos.to_nat p) (List.length l). intros m n. lia.
Qed.

(** ** The index: what [search] returns for an empty index and for
       [k <= 0] *)

Lemma search_with_full sim (idx : FAISS.index) q :
  FAISS.search_with sim idx q (Z.of_nat (List.length idx))
  = JS.sort by_score (FAISS.scored sim idx q).
Proof.
  unfold FAISS.search_with. destruct idx as [|it idx]; [reflexivity|].
  apply slice0_all. rewrite sort_length. unfold FAISS.scored.
  rewrite length_map. lia.
Qed.

(** C5, as the spec words it, fails: with two indexed documents,
    [search(q, -1)] returns the best one instead of nothing. *)
Lemma search_negative_k_not_empty :
  FAISS.search two_docs [1; 0]%float (-1)
  = [ {| hit_docId := 1; score := 1%float |} ]
  /\ FAISS.search two_docs [1; 0]%float (-1) <> [].
Proof. split; [reflexivity | discriminate]. Qed.

(** C5, amended: [search] on an empty index returns the empty array for
    every [k]; on any index [search(q, 0)] returns the empty array; for
    a negative [k = -p] it returns the full ranking without its last [p]
    entries, which is empty only when [p] is at least the index size.
    The same holds with the similarity of [serverArray.js]. *)
Theorem search_empty_index_and_nonpositive_k
        (sim : list JS.number -> list JS.number -> JS.number)
        (idx : FAISS.index) (q : list JS.number) :
  (forall k, FAISS.search [] q k = [])
  /\ FAISS.search idx q 0 = []
  /\ (forall k, FAISS.search_with sim [] q k = [])
  /\ FAISS.search_with sim idx q 0 = []
  /\ (forall p, FAISS.search_with sim idx q (Z.neg p)
                = firstn (List.length idx - Pos.to_nat p)
                         (FAISS.search_with sim idx q (Z.of_nat (List.length idx)))).
Proof.
  assert (Hzero : forall sim', FAISS.search_with sim' idx q 0 = []).
  { intros sim'. unfold FAISS.search_with. destruct idx; [reflexivity|].
    apply slice0_zero. }
  split; [reflexivity|]. split; [apply Hzero|].
  split; [reflexivity|]. split; [apply Hzero|].
  intros p. rewrite search_with_full.
  unfold FAISS.search_with. destruct idx as [|it idx].
  - now rewrite firstn_nil.
  - rewrite slice0_neg, sort_length. unfold FAISS.scored.
    now rewrite length_map.
Qed.

(** ** Ingestion: [/add] *)

Lemma has_content_In c rows :
  has_content c rows = true <-> In c (map content rows).
Proof.
  unfold has_content. rewrite existsb_exists, in_map_iff. split.
  - intros [r [Hin Heq]]. apply String.eqb_eq in Heq. now exists r.
  - intros [r [Heq Hin]]. exists r. split; [exact Hin|]. now apply String.eqb_eq.
Qed.

Lemma max_rowid_bound rows r : In r rows -> id r <= max_rowid rows.
Proof.
  induction rows as [|r' rows IH]; simpl; [easy|].
  intros [->|Hin]; [lia|]. specialize (IH Hin). lia.
Qed.

Lemma insert_or_ignore_present d c blob :
  has_content c (documents d) = true ->
  insert_or_ignore d c blob
  = ({| documents := documents d;
        sqlite_sequence := Z.max (sqlite_sequence d) (max_rowid (documents d)) + 1 |},
     Ignored).
Proof. intros H. unfold insert_or_ignore. now rewrite H. Qed.

Lemma insert_or_ignore_fresh d c blob :
  has_content c (documents d) = false ->
  exists rowid,
    insert_or_ignore d c blob
    = ({| documents := documents d ++ [{| id := rowid; content := c; vector_blob := blob |}];
          sqlite_sequence := rowid |}, Inserted rowid)
    /\ ~ In rowid (map id (documents d)).
Proof.
  intros H. unfold insert_or_ignore. rewrite H. eexists. split; [reflexivity|].
  intros Hin. apply in_map_iff in Hin as [r [Heq Hin]].
  apply max_rowid_bound in Hin. lia.
Qed.

Lemma NoDup_snoc {A : Type} (l : list A) (a : A) :
  NoDup l -> ~ In a l -> NoDup (l ++ [a]).
Proof.
  intros Hl Ha. apply NoDup_rev in Hl.
  rewrite <- (rev_involutive (l ++ [a])). apply NoDup_rev.
  rewrite rev_app_distr. simpl. constructor; [|exact Hl].
  now rewrite <- in_rev.
Qed.

Lemma state_eta (s : state) : {| db := db s; index := index s |} = s.
Proof. now destruct s. Qed.

(** A successful [/add] keeps the state well formed and leaves the
    content stored. *)
Lemma post_add_stored s c vec :
  well_formed s ->
  let r := server.post_add s (Some c) (Fulfilled vec) false in
  missing (Some c) = false ->
  well_formed (after r) /\ has_content c (documents (db (after r))) = true.
Proof.
  intros (Hc & Hi & Hx) r Hm. subst r. unfold server.post_add.
  rewrite Hm. cbn [embed.getEmbeddings text_of].
  destruct (has_content c (documents (db s))) eqn:Hhas.
  - rewrite (insert_or_ignore_present _ _ _ Hhas). simpl.
    repeat split; assumption.
  - destruct (insert_or_ignore_fresh (db s) c (Float32.to_buffer vec) Hhas)
      as (rowid & -> & Hfresh).
    simpl. unfold well_formed, FAISS.add. simpl.
    rewrite !map_app. simpl. repeat split.
    + apply NoDup_snoc; [exact Hc|].
      intros Hin. apply has_content_In in Hin. congruence.
    + now apply NoDup_snoc.
    + now rewrite Hx.
    + apply has_content_In. rewrite map_app. apply in_or_app. right. now left.
Qed.


(** [well_formed] is an invariant: every [/add], whatever the embedding
    endpoint and the database do, keeps it. *)
Lemma post_add_well_formed s content api db_err :
  well_formed s -> well_formed (after (server.post_add s content api db_err)).
Proof.
  intros Hwf.
  destruct (missing content) eqn:Hm;
    [unfold server.post_add; rewrite Hm; exact Hwf|].
  destruct api as [vec|];
    [|unfold server.post_add; rewrite Hm; exact Hwf].
  destruct db_err;
    [unfold server.post_add; rewrite Hm; exact Hwf|].
  destruct content as [c|]; [|discriminate].
  apply (post_add_stored s c vec Hwf Hm).
Qed.

Lemma add_rows_ids rows idx idx' :
  server.add_rows rows idx = Return idx' ->
  map docId idx' = map docId idx ++ map id rows.
Proof.
  revert idx. induction rows as [|r rows IH]; simpl; intros idx H.
  - inversion H. now rewrite app_nil_r.
  - destruct (Float32.of_buffer (vector_blob r)); [|discriminate].
    rewrite (IH _ H). unfold FAISS.add. rewrite map_app, <- app_assoc.
    reflexivity.
Qed.

(** The synchronisation at process start, on the empty index,
    establishes it. *)
Lemma synchronizeFAISS_well_formed d s' :
  NoDup (map content (documents d)) -> NoDup (map id (documents d)) ->
  server.synchronizeFAISS {| db := d; index := [] |} false = Return s' ->
  well_formed s'.
Proof.
  intros Hc Hi. unfold server.synchronizeFAISS. simpl.
  destruct (server.add_rows (documents d) []) as [idx|] eqn:Hrows; [|discriminate].
  intros H. inversion H; subst. apply add_rows_ids in Hrows.
  repeat split; assumption.
Qed.

Lemma add_rows_cut_ids rows idx idx' :
  serverArray.add_rows rows idx = Return idx' ->
  map docId idx' = map docId idx ++ map id rows.
Proof.
  revert idx. induction rows as [|r rows IH]; simpl; intros idx H.
  - inversion H. now rewrite app_nil_r.
  - destruct (Float32.of_buffer (vector_blob r)); [|discriminate].
    rewrite (IH _ H). unfold serverArray.add. rewrite map_app, <- app_assoc.
    reflexivity.
Qed.

(** ** The states a process serves from *)

Lemma StronglySorted_snoc {A : Type} (R : A -> A -> Prop) (l : list A) (a : A) :
  StronglySorted R l -> Forall (fun x => R x a) l -> StronglySorted R (l ++ [a]).
Proof.
  intros Hs Ha. induction Hs as [|b l Hl IH Hb]; simpl.
  - repeat constructor.
  - inversion Ha as [|? ? Hba Hla]; subst. constructor; [now apply IH|].
    apply Forall_app. split; [exact Hb|]. now constructor.
Qed.




(** The id an insert takes is above every id of the table. *)
Lemma rowid_above (d : database) (i : Z) :
  In i (map id (documents d)) ->
  i < Z.max (sqlite_sequence d) (max_rowid (documents d)) + 1.
Proof.
  intros Hin. apply in_map_iff in Hin as [r [<- Hin]].
  apply max_rowid_bound in Hin. lia.
Qed.

Lemma insert_keeps_order (s : state) (c : string) (blob : list byte)
      (vec : list JS.number) :
  in_rowid_order s ->
  match insert_or_ignore (db s) c blob with
  | (d, Inserted lastID) =>
      in_rowid_order {| db := d;
                        index := index s ++ [{| vector := vec; docId := lastID |}] |}
  | (d, Ignored) => in_rowid_order {| db := d; index := index s |}
  end.
Proof.
  intros ((Hid & Hc) & Hx & Hincl). unfold insert_or_ignore.
  destruct (has_content c (documents (db s))) eqn:Hhas.
  - repeat split; assumption.
  - unfold in_rowid_order, rowid_order. cbn [db index documents].
    rewrite !map_app. cbn [map id content docId].
    repeat split.
    + apply StronglySorted_snoc; [exact Hid|].
      apply Forall_forall. intros i Hi. now apply rowid_above.
    + apply NoDup_snoc; [exact Hc|].
      intros Hin. apply has_content_In in Hin. congruence.
    + apply StronglySorted_snoc; [exact Hx|].
      apply Forall_forall. intros i Hi. apply rowid_above. now apply Hincl.
    + intros i Hi. apply in_app_or in Hi. apply in_or_app.
      destruct Hi as [Hi|Hi]; [left; now apply Hincl | right; exact Hi].
Qed.

Lemma post_add_in_rowid_order s field api db_err :
  in_rowid_order s -> in_rowid_order (after (server.post_add s field api db_err)).
Proof.
  intros H. unfold server.post_add.
  destruct (missing field); [exact H|].
  destruct (embed.getEmbeddings api) as [vec|e]; [|exact H].
  destruct db_err; [exact H|].
  pose proof (insert_keeps_order s (text_of field) (Float32.to_buffer vec) vec H) as Hins.
  destruct (insert_or_ignore (db s) (text_of field) (Float32.to_buffer vec))
    as [d [lastID|]]; exact Hins.
Qed.

Lemma post_add_array_in_rowid_order s field api db_err :
  in_rowid_order s -> in_rowid_order (after (serverArray.post_add s field api db_err)).
Proof.
  intros H. unfold serverArray.post_add.
  destruct (missing field); [exact H|].
  destruct (embedArray.getEmbeddings api) as [vec|e]; [|exact H].
  destruct db_err; [exact H|].
  pose proof (insert_keeps_order s (text_of field) (Float32.to_buffer vec)
                (JS.slice0 vec serverArray.ALENGTH) H) as Hins.
  destruct (insert_or_ignore (db s) (text_of field) (Float32.to_buffer vec))
    as [d [lastID|]]; exact Hins.
Qed.

Lemma load_files_in_rowid_order (files : list folder_file) :
  forall (s : state) (results : list loaded) (cs : list call),
    in_rowid_order s ->
    in_rowid_order (snd (fst (routes.load_files files s results cs))).
Proof.
  induction files as [|f files IH]; intros s results cs H; simpl; [exact H|].
  destruct (read f) as [text|e]; [|exact H].
  destruct (embed.getEmbeddings (embedded f)) as [vec|e]; [|exact H].
  destruct (run_err f) as [e|]; [exact H|].
  pose proof (insert_keeps_order s text (Buffer.from vec) vec H) as Hins.
  destruct (insert_or_ignore (db s) text (Buffer.from vec)) as [d [lastID|]];
    apply IH; exact Hins.
Qed.

Lemma load_documents_in_rowid_order s dir :
  in_rowid_order s -> in_rowid_order (load_after (routes.load_documents s dir)).
Proof.
  intros H. unfold routes.load_documents. destruct dir as [files|e]; [|exact H].
  pose proof (load_files_in_rowid_order files s [] [] H) as Hl.
  destruct (routes.load_files files s [] []) as [[[results|e] s'] cs]; exact Hl.
Qed.

(** [/search] of [server.js] writes nothing: unless it ends the
    process, the state is as it was. *)
Lemma post_search_keeps_state s query k api db_err chat :
  uncaught (server.post_search s query k api db_err chat) = None ->
  after (server.post_search s query k api db_err chat) = s.
Proof.
  unfold server.post_search.
  destruct (missing query); [reflexivity|].
  destruct (embed.getEmbeddings api) as [queryVector|e]; [|reflexivity].
  destruct db_err; [reflexivity|].
  destruct (server.score_rows queryVector (documents (db s))) as [results|e];
    [|discriminate].
  destruct (embed.getAnswer _ _ chat) as [[answer|e] cs]; [reflexivity|discriminate].
Qed.

Lemma post_search_array_keeps_state math_dot math_norm2 s query k api db_err chat :
  after (serverArray.post_search math_dot math_norm2 s query k api db_err chat) = s.
Proof.
  unfold serverArray.post_search.
  destruct (missing query); [reflexivity|].
  destruct (embedArray.getEmbeddings api) as [queryVector|e]; [|reflexivity].
  destruct (serverArray.search _ _ _ _ _) as [hits|e]; [|reflexivity].
  destruct db_err as [e|]; [reflexivity|].
  destruct (embedArray.getAnswer _ _ chat) as [[answer|e] cs]; reflexivity.
Qed.

(** Whatever a process has been asked so far, its table is in rowid
    order with unique contents, and its index holds ids of rows, in
    ascending order. *)
Lemma served_in_rowid_order (p : program) (s : state) :
  served p s -> in_rowid_order s.
Proof.
  induction 1 as [d db_err s Hd Hsync | s field api db_err _ IH | s dir _ IH
                  | s query k api db_err chat _ IH Hlive
                  | d count_err all_err s Hd Hsync | s field api db_err _ IH
                  | math_dot math_norm2 s query k api db_err chat _ IH].
  - unfold server.synchronizeFAISS in Hsync. cbn [db index] in Hsync.
    destruct db_err.
    + inversion Hsync; subst. repeat split; try apply Hd; [constructor|intros ? []].
    + destruct (server.add_rows (documents d) []) as [idx|] eqn:Hrows; [|discriminate].
      inversion Hsync; subst. apply add_rows_ids in Hrows. cbn [map app] in Hrows.
      unfold in_rowid_order. cbn [db index]. rewrite Hrows.
      repeat split; try apply Hd. apply incl_refl.
  - now apply post_add_in_rowid_order.
  - now apply load_documents_in_rowid_order.
  - now rewrite post_search_keeps_state.
  - assert (Hstart : in_rowid_order {| db := d; index := [] |})
      by (repeat split; try apply Hd; [constructor|intros ? []]).
    unfold serverArray.synchronizeFAISS in Hsync. cbn [db index] in Hsync.
    destruct count_err; [inversion Hsync; subst; exact Hstart|].
    destruct (Z.of_nat (List.length (documents d)) =? 0);
      [inversion Hsync; subst; exact Hstart|].
    destruct all_err; [inversion Hsync; subst; exact Hstart|].
    destruct (serverArray.add_rows (documents d) []) as [idx|] eqn:Hrows; [|discriminate].
    inversion Hsync; subst. apply add_rows_cut_ids in Hrows. cbn [map app] in Hrows.
    unfold in_rowid_order. cbn [db index]. rewrite Hrows.
    repeat split; try apply Hd. apply incl_refl.
  - now apply post_add_array_in_rowid_order.
  - now rewrite post_search_array_keeps_state.
Qed.

(** ** Ingesting the same content twice *)





(** C6: when the embedding call fails during [/add], the handler
    answers 500 and leaves the database and the index as they were, in
    [server.js] and in [serverArray.js]. *)
Theorem post_add_provider_failure (s : state) (content : option string) (db_err : bool) :
  missing content = false ->
  embed.getEmbeddings Rejected = Throw "Error calling OpenAI API getEmbeddings"
  /\ server.post_add s content Rejected db_err
     = respond 500 (Error "Error processing document." None) s
               [EmbeddingsCreate (text_of content)]
  /\ serverArray.post_add s content Rejected db_err
     = respond 500 (Error "Error processing document." None) s
               [EmbeddingsCreate (text_of content)].
Proof.
  intros Hm. unfold server.post_add, serverArray.post_add. rewrite Hm.
  repeat split.
Qed.

Lemma post_add_provider_failure_witness :
  let s := empty_state in
  embed.getEmbeddings Rejected = Throw "Error calling OpenAI API getEmbeddings"
  /\ server.post_add s (Some "new text") Rejected false
     = respond 500 (Error "Error processing document." None) s
               [EmbeddingsCreate "new text"]
  /\ serverArray.post_add s (Some "new text") Rejected false
     = respond 500 (Error "Error processing document." None) s
               [EmbeddingsCreate "new text"].
Proof.
  apply (post_add_provider_failure empty_state (Some "new text") false).
  reflexivity.
Defined.

(** ** Validation of the request fields *)

(** C9, as the spec words it, fails: a blank content is no empty
    content for [!content], so it is not answered 400 but embedded,
    stored and indexed. *)
Lemma blank_content_is_stored :
  let r := server.post_add empty_state (Some " ") (Fulfilled [1]%float) false in
  sent r = Some {| status := 200; json := Message "Document added." (Some 1) |}
  /\ option_map status (sent r) <> Some 400
  /\ map content (documents (db (after r))) = [" "]
  /\ map docId (index (after r)) = [1].
Proof. repeat split. discriminate. Qed.

(** C9, amended: [/add] answers 400 to a missing or empty content,
    without calling the embedding endpoint and without touching the
    store or the index (a content of blanks only is not rejected);
    [/search] answers 400 to a missing or empty query before any
    embedding or search, in both servers. *)
Theorem missing_field_rejected
        (s : state) (field : option string) (k : option Z)
        (api : outcome (list JS.number)) (chat : outcome string)
        (db_err : bool) (db_err' : option string)
        (math_dot : list JS.number -> list JS.number -> completion JS.number)
        (math_norm2 : list JS.number -> JS.number) :
  missing field = true ->
  server.post_add s field api db_err
  = respond 400 (Error "Content is required" None) s []
  /\ serverArray.post_add s field api db_err
     = respond 400 (Error "Content is required" None) s []
  /\ server.post_search s field k api db_err chat
     = respond 400 (Error "Query is required" None) s []
  /\ serverArray.post_search math_dot math_norm2 s field k api db_err' chat
     = respond 400 (Error "Query is required" None) s [].
Proof.
  intros Hm.
  unfold server.post_add, serverArray.post_add, server.post_search,
    serverArray.post_search.
  rewrite Hm. repeat split.
Qed.

Lemma missing_field_rejected_witness :
  let s := empty_state in
  let dot (a b : list JS.number) := Return 0%float in
  let norm (a : list JS.number) := 0%float in
  server.post_add s (Some "") (Fulfilled []) false
  = respond 400 (Error "Content is required" None) s []
  /\ serverArray.post_add s (Some "") (Fulfilled []) false
     = respond 400 (Error "Content is required" None) s []
  /\ server.post_search s (Some "") None (Fulfilled []) false Rejected
     = respond 400 (Error "Query is required" None) s []
  /\ serverArray.post_search dot norm s (Some "") None (Fulfilled []) None Rejected
     = respond 400 (Error "Query is required" None) s [].
Proof.
  apply (missing_field_rejected empty_state (Some "") None (Fulfilled []) Rejected
                                false None).
  reflexivity.
Defined.

(** ** Retrieval in [server.js]: a scan of the table *)

Lemma score_rows_ids q rows results :
  server.score_rows q rows = Return results ->
  map r_docId results = map id rows.
Proof.
  revert results. induction rows as [|r rows IH]; simpl; intros results H.
  - now inversion H.
  - destruct (Float32.of_buffer (vector_blob r)); [|discriminate].
    destruct (server.score_rows q rows) as [rs|]; [|discriminate].
    inversion H; subst. simpl. f_equal. now apply IH.
Qed.

(** ** Failures of the answer generator *)

Lemma embed_getAnswer_swallows (context question : string) :
  Z.of_nat (String.length (embed.template context question)) <= 10000 ->
  embed.getAnswer context question Rejected
  = (Return None, [ChatCompletionsCreate (embed.template context question)]).
Proof.
  intros Hlen. unfold embed.getAnswer.
  destruct (Z.ltb_spec 10000 (Z.of_nat (String.length (embed.template context question))));
    [lia | reflexivity].
Qed.

Lemma embedArray_getAnswer_rethrows (context question : string) :
  Z.of_nat (String.length (embedArray.template context question)) <= 10000 ->
  embedArray.getAnswer context question Rejected
  = (Throw "Error generating answer from OpenAI",
     [ChatCompletionsCreate (embedArray.template context question)]).
Proof.
  intros Hlen. unfold embedArray.getAnswer.
  destruct (Z.ltb_spec 10000 (Z.of_nat (String.length (embedArray.template context question))));
    [lia | reflexivity].
Qed.

(** C8 on the code: with the chat endpoint failing, [getAnswer] of
    [embed.js] returns [undefined] instead of throwing, and [/search] of
    [server.js] answers 200 with no answer; [getAnswer] of
    [embedArray.js] rethrows and [/search] of [serverArray.js] answers
    500. *)
Theorem answer_failure_in_server_js :
  let s := {| db := cats_and_dogs; index := [] |} in
  let r := server.post_search s (Some "about cats") (Some 1)
                              (Fulfilled [3; 1]%float) false Rejected in
  fst (embed.getAnswer "1. cats are mammals" "about cats" Rejected) = Return None
  /\ option_map status (sent r) = Some 200
  /\ (exists prompt results,
         option_map json (sent r) = Some (SearchReply prompt results None))
  /\ fst (embedArray.getAnswer "1. cats are mammals" "about cats" Rejected)
     = Throw "Error generating answer from OpenAI"
  /\ forall dot norm,
      option_map status
        (sent (serverArray.post_search dot norm s (Some "about cats") (Some 1)
                 (Fulfilled [3; 1]%float) None Rejected)) = Some 500.
Proof.
  split; [reflexivity|]. split; [vm_compute; reflexivity|]. split.
  - do 2 eexists. vm_compute. reflexivity.
  - split; [reflexivity|]. intros dot norm. reflexivity.
Qed.

(** ** Zero vectors *)

(** The scoring function of [/search] in [server.js] gives [0] as soon as
    one of the two magnitudes is zero. *)
Lemma guarded_similarity_zero (vecA vecB : list JS.number) :
  PrimFloat.eqb (PrimFloat.sqrt (sum_of_squares vecA)) 0 = true
  \/ PrimFloat.eqb (PrimFloat.sqrt (sum_of_squares vecB)) 0 = true ->
  server.cosineSimilarity vecA vecB = 0%float.
Proof.
  intros H. unfold server.cosineSimilarity, JS.truthy.
  destruct H as [H|H]; rewrite H; simpl.
  - reflexivity.
  - now rewrite andb_false_r.
Qed.

(** C4 on the code: [FAISS.search] divides by the product of the
    magnitudes without a test, so a zero stored vector or a zero query
    is scored [NaN]; the entry is kept.  The scoring function written
    in [/search] of [server.js] gives [0] on the same input. *)
Theorem zero_vector_scores_nan :
  FAISS.search [ {| vector := [0; 0]%float; docId := 1 |} ] [1; 0]%float 1
  = [ {| hit_docId := 1; score := PrimFloat.nan |} ]
  /\ FAISS.search two_docs [0; 0]%float 2
     = [ {| hit_docId := 1; score := PrimFloat.nan |};
         {| hit_docId := 2; score := PrimFloat.nan |} ]
  /\ server.cosineSimilarity [1; 0]%float [0; 0]%float = 0%float.
Proof. repeat split. Qed.

(** ** Rounding in the specification of IEEE arithmetic

    Facts about [binary_round] and [binary_round_aux] of [SpecFloat],
    for any format: rounding a positive mantissa at an exponent that is
    not below [emin] gives neither zero nor [NaN]; the finite values
    [binary_round] returns are canonical; comparison is the comparison
    of values; and the sign of a difference is the sign of the
    difference of the values. *)

Section SpecFloatFacts.
Variables prec emax : Z.
Hypothesis prec_pos : 0 < prec.
Hypothesis emax_pos : 0 < emax.

Local Abbreviation emin := (SpecFloat.emin prec emax).
Local Abbreviation fexp := (SpecFloat.fexp prec emax).

Lemma digits2_pos_bounds (p : positive) :
  2 ^ (Z.pos (digits2_pos p) - 1) <= Z.pos p < 2 ^ Z.pos (digits2_pos p).
Proof.
  induction p as [p IH|p IH|]; simpl digits2_pos.
  - rewrite Pos2Z.inj_succ, (Pos2Z.inj_xI p).
    replace (Z.succ (Z.pos (digits2_pos p)) - 1)
      with (Z.succ (Z.pos (digits2_pos p) - 1)) by (clear; lia).
    rewrite !Z.pow_succ_r by (clear; lia).
    revert IH. generalize (2 ^ (Z.pos (digits2_pos p) - 1)) (2 ^ Z.pos (digits2_pos p)).
    intros a b IH. lia.
  - rewrite Pos2Z.inj_succ, (Pos2Z.inj_xO p).
    replace (Z.succ (Z.pos (digits2_pos p)) - 1)
      with (Z.succ (Z.pos (digits2_pos p) - 1)) by (clear; lia).
    rewrite !Z.pow_succ_r by (clear; lia).
    revert IH. generalize (2 ^ (Z.pos (digits2_pos p) - 1)) (2 ^ Z.pos (digits2_pos p)).
    intros a b IH. lia.
  - simpl. lia.
Qed.

Lemma Zdigits2_bounds (m : Z) :
  0 < m -> 2 ^ (Zdigits2 m - 1) <= m < 2 ^ Zdigits2 m.
Proof.
  destruct m as [|p|p]; try lia. intros _. apply digits2_pos_bounds.
Qed.

Lemma Zdigits2_pos (m : Z) : 0 < m -> 0 < Zdigits2 m.
Proof. destruct m; simpl; lia. Qed.

Lemma shr_1_m (mrs : shr_record) :
  0 <= shr_m mrs -> shr_m (shr_1 mrs) = shr_m mrs / 2.
Proof.
  destruct mrs as [m r s]. simpl. intros Hm.
  rewrite <- Z.div2_div.
  destruct m as [|[p|p|]|p]; try reflexivity. lia.
Qed.

Lemma iter_shr_1_m (p : positive) (mrs : shr_record) :
  0 <= shr_m mrs ->
  shr_m (iter_pos shr_1 p mrs) = shr_m mrs / 2 ^ Z.pos p.
Proof.
  revert mrs. induction p as [p IH|p IH|]; intros mrs Hm; simpl iter_pos.
  - assert (H1 : 0 <= shr_m (shr_1 mrs))
      by (rewrite shr_1_m by exact Hm; apply Z.div_pos; lia).
    assert (H2 : 0 <= shr_m (iter_pos shr_1 p (shr_1 mrs)))
      by (rewrite IH by exact H1; apply Z.div_pos; [exact H1|apply Z.pow_pos_nonneg; lia]).
    rewrite IH by exact H2. rewrite IH by exact H1. rewrite shr_1_m by exact Hm.
    rewrite !Z.div_div by (try apply Z.pow_pos_nonneg; lia).
    f_equal. rewrite (Pos2Z.inj_xI p).
    replace (2 * Z.pos p + 1) with (1 + Z.pos p + Z.pos p) by lia.
    rewrite !Z.pow_add_r by lia. rewrite Z.pow_1_r. lia.
  - assert (H2 : 0 <= shr_m (iter_pos shr_1 p mrs))
      by (rewrite IH by exact Hm; apply Z.div_pos; [exact Hm|apply Z.pow_pos_nonneg; lia]).
    rewrite IH by exact H2. rewrite IH by exact Hm.
    rewrite !Z.div_div by (try apply Z.pow_pos_nonneg; lia).
    f_equal. rewrite (Pos2Z.inj_xO p).
    replace (2 * Z.pos p) with (Z.pos p + Z.pos p) by lia.
    rewrite !Z.pow_add_r by lia. lia.
  - rewrite shr_1_m by exact Hm. now rewrite Z.pow_1_r.
Qed.

Lemma shr_record_of_loc_m (m : Z) (l : location) :
  shr_m (shr_record_of_loc m l) = m.
Proof. destruct l as [|[]]; reflexivity. Qed.

(** What [shr_fexp] leaves: the mantissa divided by a power of two, the
    exponent raised by as much. *)
Lemma shr_fexp_spec (m e : Z) (l : location) :
  0 <= m ->
  let n := Z.max 0 (fexp (Zdigits2 m + e) - e) in
  shr_m (fst (shr_fexp prec emax m e l)) = m / 2 ^ n
  /\ snd (shr_fexp prec emax m e l) = e + n.
Proof.
  intros Hm n. subst n. unfold shr_fexp, shr.
  destruct (fexp (Zdigits2 m + e) - e) as [|p|p] eqn:Hn; simpl fst; simpl snd.
  - rewrite shr_record_of_loc_m. simpl. rewrite Z.div_1_r. lia.
  - rewrite iter_shr_1_m by (rewrite shr_record_of_loc_m; exact Hm).
    rewrite shr_record_of_loc_m. rewrite Z.max_r by lia. split; [reflexivity|lia].
  - rewrite shr_record_of_loc_m. rewrite Z.max_l by lia. simpl. rewrite Z.div_1_r. lia.
Qed.

Lemma shr_fexp_bounded (m e : Z) (l : location) :
  0 <= m ->
  0 <= shr_m (fst (shr_fexp prec emax m e l)) < 2 ^ prec
  /\ emin <= snd (shr_fexp prec emax m e l).
Proof.
  intros Hm. destruct (shr_fexp_spec m e l Hm) as [-> ->].
  set (n := Z.max 0 (fexp (Zdigits2 m + e) - e)).
  assert (Hn : 0 <= n) by (subst n; lia).
  assert (Hpow : 0 < 2 ^ n) by (apply Z.pow_pos_nonneg; lia).
  split; [split|].
  - apply Z.div_pos; lia.
  - apply Z.div_lt_upper_bound; [exact Hpow|].
    rewrite <- Z.pow_add_r by lia.
    destruct (Z.eq_dec m 0) as [->|Hnz].
    + apply Z.pow_pos_nonneg; lia.
    + assert (H0 : 0 < m) by lia.
      apply Z.lt_le_trans with (2 ^ Zdigits2 m); [apply Zdigits2_bounds, H0|].
      apply Z.pow_le_mono_r; [lia|]. subst n. unfold SpecFloat.fexp. lia.
  - subst n. unfold SpecFloat.fexp. lia.
Qed.

Lemma shr_fexp_positive (m e : Z) (l : location) :
  0 < m -> emin <= e ->
  0 < shr_m (fst (shr_fexp prec emax m e l)).
Proof.
  intros Hm He. destruct (shr_fexp_spec m e l) as [-> _]; [lia|].
  set (n := Z.max 0 (fexp (Zdigits2 m + e) - e)).
  apply Z.div_str_pos. split; [apply Z.pow_pos_nonneg; lia|].
  apply Z.le_trans with (2 ^ (Zdigits2 m - 1)); [|apply Zdigits2_bounds, Hm].
  apply Z.pow_le_mono_r; [lia|]. subst n. unfold SpecFloat.fexp.
  pose proof (Zdigits2_pos m Hm). lia.
Qed.

Lemma round_nearest_even_ge (m : Z) (l : location) :
  m <= round_nearest_even m l.
Proof. destruct l as [|[]]; simpl; try lia. destruct (Z.even m); lia. Qed.

Lemma binary_round_aux_positive (sx : bool) (mx ex : Z) (lx : location) :
  0 < mx -> emin <= ex ->
  match binary_round_aux prec emax sx mx ex lx with
  | S754_finite s _ _ => s = sx
  | S754_infinity s => s = sx
  | _ => False
  end.
Proof.
  intros Hm He. unfold binary_round_aux.
  pose proof (shr_fexp_positive mx ex lx Hm He) as H1.
  pose proof (shr_fexp_bounded mx ex lx (Z.lt_le_incl _ _ Hm)) as [_ He'].
  destruct (shr_fexp prec emax mx ex lx) as [mrs' e']. simpl fst in H1. simpl snd in He'.
  assert (H2 : 0 < round_nearest_even (shr_m mrs') (loc_of_shr_record mrs'))
    by (pose proof (round_nearest_even_ge (shr_m mrs') (loc_of_shr_record mrs')); lia).
  pose proof (shr_fexp_positive _ e' loc_Exact H2 He') as H3.
  destruct (shr_fexp prec emax _ e' loc_Exact) as [mrs'' e''].
  simpl fst in H3.
  destruct (shr_m mrs'') as [|m|m]; [lia| |lia].
  destruct (Z.leb_spec e'' (emax - prec)); reflexivity.
Qed.


Lemma iter_xO (m d : positive) :
  Z.pos (Pos.iter xO m d) = Z.pos m * 2 ^ Z.pos d.
Proof.
  induction d as [|d IH] using Pos.peano_ind.
  - simpl. lia.
  - rewrite Pos.iter_succ, (Pos2Z.inj_xO (Pos.iter xO m d)), IH.
    rewrite Pos2Z.inj_succ, Z.pow_succ_r by lia. lia.
Qed.

(** *** Canonical results

    When the mantissa handed to [shr_fexp] has at least as many digits
    as the format asks for at its exponent, what comes out is either at
    the least exponent or has a full mantissa. *)

Lemma digits_above (a m : Z) : 0 < m -> 2 ^ a <= m -> a < Zdigits2 m.
Proof.
  intros Hm Ha. pose proof (Zdigits2_bounds m Hm) as [_ Hhi].
  pose proof (Zdigits2_pos m Hm) as Hd.
  destruct (Z.lt_ge_cases a (Zdigits2 m)) as [H|H]; [exact H|].
  assert (2 ^ Zdigits2 m <= 2 ^ a) by (apply Z.pow_le_mono_r; lia). lia.
Qed.

Lemma full_mantissa_fits (m e : Z) :
  0 < m -> emin <= e -> (emin < e -> 2 ^ (prec - 1) <= m) -> fits prec emax m e.
Proof.
  intros Hm He Hfull. unfold fits, SpecFloat.fexp.
  destruct (Z.eq_dec e emin) as [->|Hne]; [lia|].
  assert (Hd : prec - 1 < Zdigits2 m) by (apply digits_above; [exact Hm|apply Hfull; lia]).
  lia.
Qed.

Lemma shr_fexp_full (m e : Z) (l : location) :
  0 < m -> fits prec emax m e ->
  emin < snd (shr_fexp prec emax m e l) ->
  2 ^ (prec - 1) <= shr_m (fst (shr_fexp prec emax m e l)).
Proof.
  intros Hm Hfit. destruct (shr_fexp_spec m e l) as [-> ->]; [lia|].
  unfold fits in Hfit. pose proof (Zdigits2_bounds m Hm) as [Hlo _].
  pose proof (Zdigits2_pos m Hm) as Hd.
  rewrite Z.max_r by lia.
  replace (e + (fexp (Zdigits2 m + e) - e)) with (fexp (Zdigits2 m + e)) by lia.
  unfold SpecFloat.fexp in *. intros Hgt.
  rewrite Z.max_l in * by lia.
  replace (Zdigits2 m + e - prec - e) with (Zdigits2 m - prec) by lia.
  apply Z.div_le_lower_bound; [apply Z.pow_pos_nonneg; lia|].
  rewrite <- Z.pow_add_r by lia.
  replace (Zdigits2 m - prec + (prec - 1)) with (Zdigits2 m - 1) by lia.
  exact Hlo.
Qed.

Lemma shl_align_fits (m : positive) (e : Z) :
  let '(mz, ez) := shl_align m e (fexp (Z.pos (digits2_pos m) + e)) in
  fits prec emax (Z.pos mz) ez.
Proof.
  unfold shl_align, fits.
  pose proof (digits2_pos_bounds m) as [Hlo _].
  destruct (fexp (Z.pos (digits2_pos m) + e) - e) as [|d|d] eqn:Hd.
  - simpl Zdigits2. lia.
  - simpl Zdigits2. lia.
  - assert (Hk : Z.pos (digits2_pos m) - 1 + Z.pos d < Zdigits2 (Z.pos (Pos.iter xO m d))).
    { apply digits_above; [lia|]. rewrite iter_xO.
      rewrite Z.pow_add_r by lia.
      apply Z.mul_le_mono_nonneg_r; [apply Z.pow_nonneg; lia|exact Hlo]. }
    assert (Hmono : fexp (Z.pos (digits2_pos m) + e)
                    <= fexp (Zdigits2 (Z.pos (Pos.iter xO m d))
                             + fexp (Z.pos (digits2_pos m) + e))).
    { unfold SpecFloat.fexp in *. lia. }
    exact Hmono.
Qed.

(** The finite values [binary_round] returns are canonical: mantissa
    below [2 ^ prec], exponent in range, and a mantissa of full width
    unless the exponent is the least one. *)
Lemma binary_round_canonical (sx : bool) (mx : positive) (ex : Z) :
  match binary_round prec emax sx mx ex with
  | S754_finite s m e =>
      s = sx /\ Z.pos m < 2 ^ prec /\ emin <= e <= emax - prec
      /\ (emin < e -> 2 ^ (prec - 1) <= Z.pos m)
  | S754_infinity s => s = sx
  | S754_zero s => s = sx
  | S754_nan => False
  end.
Proof.
  unfold binary_round. pose proof (shl_align_fits mx ex) as Hfit.
  destruct (shl_align mx ex _) as [mz ez].
  unfold binary_round_aux.
  assert (Hm : 0 < Z.pos mz) by lia.
  pose proof (shr_fexp_bounded (Z.pos mz) ez loc_Exact (Z.lt_le_incl _ _ Hm))
    as [[H1 _] He1].
  pose proof (shr_fexp_full (Z.pos mz) ez loc_Exact Hm Hfit) as Hfull1.
  destruct (shr_fexp prec emax (Z.pos mz) ez loc_Exact) as [mrs' e'].
  simpl fst in *. simpl snd in *.
  pose proof (round_nearest_even_ge (shr_m mrs') (loc_of_shr_record mrs')) as Hge.
  set (m1 := round_nearest_even (shr_m mrs') (loc_of_shr_record mrs')) in *.
  assert (H2 : 0 <= m1) by lia.
  pose proof (shr_fexp_bounded m1 e' loc_Exact H2) as [[H3 H4] H5].
  destruct (Z.eq_dec m1 0) as [Hz|Hnz].
  - rewrite Hz in *.
    destruct (shr_fexp_spec 0 e' loc_Exact ltac:(lia)) as [E _].
    rewrite Z.div_0_l in E by (apply Z.pow_nonzero; lia).
    destruct (shr_fexp prec emax 0 e' loc_Exact) as [mrs'' e''].
    simpl fst in E. now rewrite E.
  - assert (Hm1 : 0 < m1) by lia.
    assert (Hfit1 : fits prec emax m1 e')
      by (apply full_mantissa_fits; [exact Hm1|exact He1|intros H; specialize (Hfull1 H); lia]).
    pose proof (shr_fexp_full m1 e' loc_Exact Hm1 Hfit1) as Hfull2.
    destruct (shr_fexp prec emax m1 e' loc_Exact) as [mrs'' e''].
    simpl fst in *. simpl snd in *.
    destruct (shr_m mrs'') as [|m|m]; [reflexivity| |lia].
    destruct (Z.leb_spec e'' (emax - prec)); [|reflexivity].
    repeat split; try assumption. 
Qed.

(** *** Order: comparison is comparison of scaled values *)

Lemma bounded_inv (m : positive) (e : Z) :
  bounded prec emax m e = true ->
  emin <= e <= emax - prec
  /\ Z.pos m < 2 ^ prec
  /\ (emin < e -> 2 ^ (prec - 1) <= Z.pos m).
Proof.
  unfold bounded, canonical_mantissa. intros H.
  apply andb_prop in H as [Hc He].
  apply Z.eqb_eq in Hc. apply Z.leb_le in He.
  pose proof (digits2_pos_bounds m) as [Hlo Hhi].
  unfold SpecFloat.fexp in Hc.
  assert (Hd : Z.pos (digits2_pos m) <= prec) by lia.
  repeat split; try lia.
  - apply Z.lt_le_trans with (2 ^ Z.pos (digits2_pos m)); [exact Hhi|].
    apply Z.pow_le_mono_r; lia.
  - intros Hlt. assert (Hd' : Z.pos (digits2_pos m) = prec) by lia.
    now rewrite <- Hd'.
Qed.

Lemma scaled_pos (m : positive) (e : Z) :
  emin <= e -> 0 < Z.pos m * 2 ^ (e - emin).
Proof.
  intros He. apply Z.mul_pos_pos; [lia|]. apply Z.pow_pos_nonneg; lia.
Qed.

Lemma scaled_below_infinity (m : positive) (e : Z) :
  bounded prec emax m e = true ->
  Z.pos m * 2 ^ (e - emin) < 2 ^ (emax - emin).
Proof.
  intros H. apply bounded_inv in H as (He & Hm & _).
  replace (emax - emin) with (prec + (emax - prec - emin)) by lia.
  rewrite Z.pow_add_r by lia.
  assert (H1 : 0 < 2 ^ (e - emin)) by (apply Z.pow_pos_nonneg; lia).
  assert (H2 : 2 ^ (e - emin) <= 2 ^ (emax - prec - emin))
    by (apply Z.pow_le_mono_r; lia).
  revert Hm H1 H2.
  generalize (2 ^ (e - emin)) (2 ^ (emax - prec - emin)) (2 ^ prec).
  intros a b c Hm H1 H2.
  apply Z.lt_le_trans with (c * a).
  - apply Z.mul_lt_mono_pos_r; assumption.
  - apply Z.mul_le_mono_nonneg_l; lia.
Qed.

Lemma scaled_compare (m1 m2 : positive) (e1 e2 : Z) :
  bounded prec emax m1 e1 = true ->
  bounded prec emax m2 e2 = true ->
  match e1 ?= e2 with
  | Lt => Lt
  | Gt => Gt
  | Eq => Pos.compare_cont Eq m1 m2
  end = (Z.pos m1 * 2 ^ (e1 - emin) ?= Z.pos m2 * 2 ^ (e2 - emin)).
Proof.
  intros H1 H2.
  apply bounded_inv in H1 as (He1 & Hm1 & Hn1).
  apply bounded_inv in H2 as (He2 & Hm2 & Hn2).
  assert (Hstep : forall ma mb ea eb : Z,
             emin <= ea -> ea < eb -> 0 < ma < 2 ^ prec -> 2 ^ (prec - 1) <= mb ->
             ma * 2 ^ (ea - emin) < mb * 2 ^ (eb - emin)).
  { intros ma mb ea eb Hea Hlt Hma Hmb.
    replace (eb - emin) with ((eb - ea - 1) + 1 + (ea - emin)) by lia.
    rewrite !Z.pow_add_r by lia. rewrite Z.pow_1_r.
    assert (Ha : 0 < 2 ^ (ea - emin)) by (apply Z.pow_pos_nonneg; lia).
    assert (Hb : 0 < 2 ^ (eb - ea - 1)) by (apply Z.pow_pos_nonneg; lia).
    assert (Hp : 2 ^ prec = 2 * 2 ^ (prec - 1)).
    { replace prec with (1 + (prec - 1)) at 1 by lia.
      rewrite Z.pow_add_r by lia. now rewrite Z.pow_1_r. }
    revert Hma Hmb Ha Hb. rewrite Hp.
    generalize (2 ^ (ea - emin)) (2 ^ (eb - ea - 1)) (2 ^ (prec - 1)).
    intros a b c Hma Hmb Ha Hb.
    apply Z.lt_le_trans with (2 * c * a).
    - apply Z.mul_lt_mono_pos_r; lia.
    - assert (H : c * a <= mb * a) by (apply Z.mul_le_mono_nonneg_r; lia).
      assert (H' : 1 * (mb * a) <= b * (mb * a))
        by (apply Z.mul_le_mono_nonneg_r; [apply Z.mul_nonneg_nonneg|]; lia).
      lia. }
  destruct (Z.compare_spec e1 e2) as [Heq|Hlt|Hgt].
  - subst e2. change (Pos.compare_cont Eq m1 m2) with (Z.pos m1 ?= Z.pos m2).
    apply Zmult_compare_compat_r. apply Z.lt_gt, Z.pow_pos_nonneg; lia.
  - symmetry. apply Z.compare_lt_iff. apply Hstep; solve [lia | apply Hn2; lia].
  - symmetry. apply Z.compare_gt_iff. apply Hstep; solve [lia | apply Hn1; lia].
Qed.

Local Ltac cmp :=
  f_equal; symmetry;
  first [ apply Z.compare_eq_iff; lia
        | apply Z.compare_lt_iff; lia
        | apply Z.compare_gt_iff; lia ].

Lemma infinity_pos : 0 < 2 ^ (emax - emin).
Proof. apply Z.pow_pos_nonneg; unfold SpecFloat.emin; lia. Qed.

Lemma SFcompare_val (x y : spec_float) :
  SpecFloat.valid_binary prec emax x = true ->
  SpecFloat.valid_binary prec emax y = true ->
  not_nan x = true -> not_nan y = true ->
  SFcompare x y = Some (val prec emax x ?= val prec emax y).
Proof.
  pose proof infinity_pos as Hinf.
  destruct x as [sx|sx| |sx mx ex], y as [sy|sy| |sy my ey];
    try discriminate; intros Vx Vy _ _; simpl in Vx, Vy;
    unfold SFcompare, val, cond_Zopp;
    try (pose proof (scaled_below_infinity _ _ Vx));
    try (pose proof (scaled_below_infinity _ _ Vy));
    try (apply bounded_inv in Vx as Bx; destruct Bx as ((Bx & _) & _);
         pose proof (scaled_pos mx ex Bx));
    try (apply bounded_inv in Vy as By; destruct By as ((By & _) & _);
         pose proof (scaled_pos my ey By)).
  all: try solve [reflexivity | destruct sx; try destruct sy; cmp | destruct sy; cmp].
  f_equal. destruct sx, sy.
  - rewrite Z.compare_opp, <- (scaled_compare my mx ey ex Vy Vx).
    rewrite (Z.compare_antisym ex ey), (Pos.compare_cont_antisym mx my Eq).
    destruct (ex ?= ey); reflexivity.
  - symmetry. apply Z.compare_lt_iff. lia.
  - symmetry. apply Z.compare_gt_iff. lia.
  - apply scaled_compare; assumption.
Qed.


(** *** Subtraction: the sign of a difference *)

Lemma shl_align_fst (m : positive) (e ez : Z) :
  ez <= e -> Z.pos (fst (shl_align m e ez)) = Z.pos m * 2 ^ (e - ez).
Proof.
  intros Hle. unfold shl_align.
  destruct (ez - e) as [|d|d] eqn:Hd; try lia; simpl fst.
  - replace (e - ez) with 0 by lia. simpl. lia.
  - rewrite iter_xO. f_equal. f_equal. lia.
Qed.

Lemma shl_align_snd (m : positive) (e ez : Z) :
  emin <= e -> emin <= ez -> emin <= snd (shl_align m e ez).
Proof.
  intros He Hz. unfold shl_align. destruct (ez - e); simpl; assumption.
Qed.

Lemma binary_normalize_sign (D ez : Z) :
  emin <= ez ->
  SFltb (S754_zero false) (binary_normalize prec emax D ez false) = (0 <? D).
Proof.
  intros Hz.
  assert (Hround : forall s p,
             match binary_round prec emax s p ez with
             | S754_finite s' _ _ => s' = s
             | S754_infinity s' => s' = s
             | _ => False
             end).
  { intros s p. unfold binary_round.
    pose proof (shl_align_snd p ez (fexp (Z.pos (digits2_pos p) + ez)) Hz) as Hs.
    destruct (shl_align p ez _) as [mz ez']. simpl snd in Hs.
    apply binary_round_aux_positive; [lia|].
    apply Hs. unfold SpecFloat.fexp. lia. }
  destruct D as [|p|p]; simpl binary_normalize.
  - reflexivity.
  - specialize (Hround false p).
    destruct (binary_round prec emax false p ez); try contradiction; now subst.
  - specialize (Hround true p).
    destruct (binary_round prec emax true p ez); try contradiction; now subst.
Qed.

Lemma cond_Zopp_mul (s : bool) (a b : Z) :
  cond_Zopp s a * b = cond_Zopp s (a * b).
Proof. destruct s; simpl; lia. Qed.

Lemma SFsub_positive (x y : spec_float) :
  SpecFloat.valid_binary prec emax x = true ->
  SpecFloat.valid_binary prec emax y = true ->
  not_nan x = true -> not_nan y = true ->
  SFltb (S754_zero false) (SFsub prec emax x y) = (val prec emax y <? val prec emax x).
Proof.
  pose proof infinity_pos as Hinf.
  destruct x as [sx|sx| |sx mx ex], y as [sy|sy| |sy my ey];
    try discriminate; intros Vx Vy _ _; simpl in Vx, Vy;
    try (pose proof (scaled_below_infinity _ _ Vx));
    try (pose proof (scaled_below_infinity _ _ Vy));
    try (apply bounded_inv in Vx as Bx; destruct Bx as ((Bx & _) & _);
         pose proof (scaled_pos mx ex Bx));
    try (apply bounded_inv in Vy as By; destruct By as ((By & _) & _);
         pose proof (scaled_pos my ey By)).
  all: try solve [ destruct sx; try destruct sy;
                   cbn [SFsub SFltb SFcompare val cond_Zopp negb];
                   symmetry; first [apply Z.ltb_lt; lia | apply Z.ltb_ge; lia]
                 | destruct sy;
                   cbn [SFsub SFltb SFcompare val cond_Zopp negb];
                   symmetry; first [apply Z.ltb_lt; lia | apply Z.ltb_ge; lia] ].
  unfold SFsub. rewrite binary_normalize_sign by lia.
  set (ez := Z.min ex ey).
  rewrite !shl_align_fst by lia.
  unfold val.
  replace (ex - emin) with ((ex - ez) + (ez - emin)) by lia.
  replace (ey - emin) with ((ey - ez) + (ez - emin)) by lia.
  rewrite !Z.pow_add_r by lia. rewrite !Z.mul_assoc, <- !cond_Zopp_mul.
  assert (Hp : 0 < 2 ^ (ez - emin)) by (apply Z.pow_pos_nonneg; lia).
  assert (E : forall a b c, 0 < c -> (0 <? a - b) = (b * c <? a * c)).
  { intros a b c Hc.
    destruct (Z.ltb_spec 0 (a - b)); symmetry; [apply Z.ltb_lt|apply Z.ltb_ge]; nia. }
  first [apply E | symmetry; apply E]; exact Hp.
Qed.

End SpecFloatFacts.

(** ** The stored encoding *)

Lemma Z_of_byte_of_Z (z : Z) : Float32.Z_of_byte (Float32.byte_of_Z z) = z mod 256.
Proof.
  unfold Float32.Z_of_byte, Float32.byte_of_Z.
  assert (Hr : 0 <= z mod 256 < 256) by (apply Z.mod_pos_bound; lia).
  destruct (Byte.of_N (Z.to_N (z mod 256))) as [b|] eqn:Hb.
  - apply Byte.to_of_N in Hb. rewrite Hb. lia.
  - apply Byte.of_N_None_iff in Hb. lia.
Qed.

Lemma bytes_word_bytes (w : Z) :
  0 <= w < 2 ^ 32 ->
  match Float32.word_bytes w with
  | [b0; b1; b2; b3] => Float32.bytes_word b0 b1 b2 b3 = w
  | _ => False
  end.
Proof.
  intros Hw. unfold Float32.word_bytes, Float32.bytes_word.
  rewrite !Z_of_byte_of_Z.
  change (2 ^ 8) with 256. change (2 ^ 16) with (256 * 256).
  change (2 ^ 24) with (256 * 256 * 256).
  change (2 ^ 32) with (256 * 256 * 256 * 256) in Hw.
  rewrite <- !Z.div_div by lia.
  pose proof (Z.div_mod w 256 ltac:(lia)) as H0.
  pose proof (Z.div_mod (w / 256) 256 ltac:(lia)) as H1.
  pose proof (Z.div_mod (w / 256 / 256) 256 ltac:(lia)) as H2.
  pose proof (Z.mod_pos_bound w 256 ltac:(lia)) as B0.
  pose proof (Z.mod_pos_bound (w / 256) 256 ltac:(lia)) as B1.
  pose proof (Z.mod_pos_bound (w / 256 / 256) 256 ltac:(lia)) as B2.
  assert (B3 : 0 <= w / 256 / 256 / 256 < 256).
  { split.
    - repeat apply Z.div_pos; lia.
    - repeat (apply Z.div_lt_upper_bound; [lia|]). lia. }
  rewrite (Z.mod_small (w / 256 / 256 / 256)) by exact B3.
  lia.
Qed.

(** The binary32 values: what [Float32.round] returns. *)
Lemma round_canonical (x : spec_float) :
  canonical32 (Float32.round x).
Proof.
  destruct x as [s|s| |s m e]; simpl; trivial.
  pose proof (binary_round_canonical 24 128 ltac:(lia) s m e) as H.
  destruct (binary_round 24 128 s m e) as [s'|s'| |s' m' e']; simpl; trivial.
  destruct H as (_ & Hm & He & Hfull). unfold emin in *.
  repeat split; lia.
Qed.

Lemma word_fields (sb E M : Z) :
  0 <= sb <= 1 -> 0 <= E < 256 -> 0 <= M < 2 ^ 23 ->
  let w := sb * 2 ^ 31 + E * 2 ^ 23 + M in
  0 <= w < 2 ^ 32
  /\ Z.testbit w 31 = (sb =? 1)
  /\ (w / 2 ^ 23) mod 256 = E
  /\ w mod 2 ^ 23 = M.
Proof.
  intros Hs HE HM w. subst w.
  change (2 ^ 31) with (2 ^ 23 * 256). change (2 ^ 32) with (2 ^ 23 * 256 * 2).
  set (B := 2 ^ 23) in *. assert (HB : 0 < B) by (subst B; lia).
  assert (Hdiv : (sb * (B * 256) + E * B + M) / B = sb * 256 + E).
  { symmetry. apply (Z.div_unique _ _ _ M); lia. }
  repeat split.
  - nia.
  - nia.
  - rewrite Z.testbit_odd, Z.shiftr_div_pow2 by lia.
    change (2 ^ 31) with (B * 256). rewrite <- Z.div_div by lia. rewrite Hdiv.
    replace ((sb * 256 + E) / 256) with sb
      by (apply (Z.div_unique _ _ _ E); lia).
    destruct (Z.eq_dec sb 0) as [->|]; [reflexivity|].
    replace sb with 1 by lia. reflexivity.
  - rewrite Hdiv. symmetry. apply (Z.mod_unique _ _ sb); lia.
  - symmetry. apply (Z.mod_unique _ _ (sb * 256 + E)); lia.
Qed.

Lemma bits_as_fields (x : spec_float) :
  canonical32 x ->
  exists sb E M,
    0 <= sb <= 1 /\ 0 <= E < 256 /\ 0 <= M < 2 ^ 23
    /\ Float32.bits x = sb * 2 ^ 31 + E * 2 ^ 23 + M
    /\ Float32.of_bits (sb * 2 ^ 31 + E * 2 ^ 23 + M) = x.
Proof.
  intros Hx.
  assert (Hdec : forall sb E M, 0 <= sb <= 1 -> 0 <= E < 256 -> 0 <= M < 2 ^ 23 ->
            Float32.of_bits (sb * 2 ^ 31 + E * 2 ^ 23 + M)
            = let s := (sb =? 1) in
              if E =? 0 then
                match M with Z.pos m => S754_finite s m (-149) | _ => S754_zero s end
              else if E =? 255 then
                (if M =? 0 then S754_infinity s else S754_nan)
              else match M + 2 ^ 23 with
                   | Z.pos m => S754_finite s m (E - 150)
                   | _ => S754_nan
                   end).
  { intros sb E M Hs HE HM. unfold Float32.of_bits.
    destruct (word_fields sb E M Hs HE HM) as (_ & -> & -> & ->). reflexivity. }
  assert (Hsb : forall s : bool, 0 <= (if s then 1 else 0) <= 1
                                 /\ Float32.sign_bit s = (if s then 1 else 0) * 2 ^ 31
                                 /\ ((if s then 1 else 0) =? 1) = s)
    by (intros []; repeat split; lia).
  destruct x as [s|s| |s m e]; simpl in Hx.
  - destruct (Hsb s) as (H1 & H2 & H3).
    exists (if s then 1 else 0), 0, 0. repeat split; try lia.
    + simpl Float32.bits. lia.
    + rewrite Hdec by lia. simpl. now rewrite H3.
  - destruct (Hsb s) as (H1 & H2 & H3).
    exists (if s then 1 else 0), 255, 0. repeat split; try lia.
    + simpl Float32.bits. lia.
    + rewrite Hdec by lia. simpl. now rewrite H3.
  - exists 0, 255, (2 ^ 22). repeat split; lia.
  - destruct Hx as (Hm & He & Hfull). destruct (Hsb s) as (H1 & H2 & H3).
    unfold Float32.bits.
    destruct (Z.ltb_spec (Z.pos m) (2 ^ 23)) as [Hsub|Hnorm].
    + assert (e = -149) by (destruct (Z.eq_dec e (-149)); [assumption|];
                            assert (2 ^ 23 <= Z.pos m) by (apply Hfull; lia); lia).
      subst e. exists (if s then 1 else 0), 0, (Z.pos m). repeat split; try lia.
      rewrite Hdec by lia. simpl. now rewrite H3.
    + change (2 ^ 24) with (2 * 2 ^ 23) in Hm.
      exists (if s then 1 else 0), (e + 150), (Z.pos m - 2 ^ 23).
      repeat split; try lia.
      rewrite Hdec by lia. cbv zeta. rewrite H3.
      destruct (Z.eqb_spec (e + 150) 0); [lia|].
      destruct (Z.eqb_spec (e + 150) 255); [lia|].
      replace (Z.pos m - 2 ^ 23 + 2 ^ 23) with (Z.pos m) by lia.
      f_equal. lia.
Qed.

Lemma bits_range (x : spec_float) :
  canonical32 x -> 0 <= Float32.bits x < 2 ^ 32.
Proof.
  intros Hx. destruct (bits_as_fields x Hx) as (sb & E & M & Hs & HE & HM & -> & _).
  apply (word_fields sb E M Hs HE HM).
Qed.

(** The bit pattern holds the whole binary32 value. *)
Lemma of_bits_bits (x : spec_float) :
  canonical32 x -> Float32.of_bits (Float32.bits x) = x.
Proof.
  intros Hx. destruct (bits_as_fields x Hx) as (sb & E & M & _ & _ & _ & -> & H).
  exact H.
Qed.

(** Reading back what [/add] wrote: every component comes back rounded
    to binary32. *)
Lemma of_buffer_to_buffer (vec : list JS.number) :
  Float32.of_buffer (Float32.to_buffer vec) = Some (map Float32.fround vec).
Proof.
  induction vec as [|x vec IH]; [reflexivity|].
  unfold Float32.to_buffer in *. cbn [flat_map].
  pose proof (round_canonical (Prim2SF x)) as Hc.
  pose proof (bytes_word_bytes _ (bits_range _ Hc)) as Hw.
  destruct (Float32.word_bytes (Float32.bits (Float32.round (Prim2SF x))))
    as [|b0 [|b1 [|b2 [|b3 [|b4 rest]]]]]; try contradiction.
  cbn [app Float32.of_buffer]. rewrite IH, Hw, (of_bits_bits _ Hc). reflexivity.
Qed.

(** C7, as the spec words it, fails: the embedding component [0.1] is
    stored as a 32-bit float and read back as [0.10000000149011612]. *)
Lemma one_tenth_not_restored :
  Float32.of_buffer (Float32.to_buffer [one_tenth]) = Some [one_tenth_f32]
  /\ Float32.of_buffer (Float32.to_buffer [one_tenth]) <> Some [one_tenth].
Proof.
  assert (H : Float32.of_buffer (Float32.to_buffer [one_tenth]) = Some [one_tenth_f32])
    by (vm_compute; reflexivity).
  split; [exact H|]. rewrite H. intros Heq.
  assert (Hx : one_tenth_f32 = one_tenth) by congruence.
  apply (f_equal (fun x => PrimFloat.eqb x one_tenth)) in Hx.
  vm_compute in Hx. discriminate.
Qed.

(** C7, amended: a vector written by [/add] and read back as the
    synchronisation reads it has the same length and holds every
    component rounded to the nearest 32-bit float ([Math.fround]); it is
    the original vector exactly when every component is a 32-bit float
    already. *)
Theorem stored_vector_round_trip (vec : list JS.number) :
  Float32.of_buffer (Float32.to_buffer vec) = Some (map Float32.fround vec)
  /\ (Float32.of_buffer (Float32.to_buffer vec) = Some vec
      <-> Forall (fun x => Float32.fround x = x) vec).
Proof.
  split; [apply of_buffer_to_buffer|].
  rewrite of_buffer_to_buffer. split.
  - intros H. assert (Hm : map Float32.fround vec = vec) by congruence.
    clear H. induction vec as [|x vec IH]; constructor.
    + simpl in Hm. congruence.
    + apply IH. simpl in Hm. congruence.
  - intros H. f_equal. induction H as [|x vec Hx _ IH]; [reflexivity|].
    simpl. now rewrite Hx, IH.
Qed.

Lemma stored_vector_round_trip_witness :
  Float32.of_buffer (Float32.to_buffer [0.5; -3; 0]%float) = Some [0.5; -3; 0]%float.
Proof.
  apply (proj2 (stored_vector_round_trip [0.5; -3; 0]%float)).
  repeat constructor.
Defined.

(** ** Synchronisation *)

Lemma add_rows_stored (docs : list document) (idx : FAISS.index) :
  server.add_rows (map stored docs) idx = Return (idx ++ map resynced docs).
Proof.
  revert idx. induction docs as [|d docs IH]; intros idx; simpl.
  - now rewrite app_nil_r.
  - rewrite of_buffer_to_buffer, IH. unfold FAISS.add.
    now rewrite <- app_assoc.
Qed.

Lemma add_rows_cut_stored (docs : list document) (idx : FAISS.index) :
  serverArray.add_rows (map stored docs) idx = Return (idx ++ map resynced_cut docs).
Proof.
  revert idx. induction docs as [|d docs IH]; intros idx; simpl.
  - now rewrite app_nil_r.
  - rewrite of_buffer_to_buffer, IH. unfold serverArray.add.
    now rewrite <- app_assoc.
Qed.

(** C3, as the spec words it, fails: a second synchronisation of a
    store of two documents leaves four index entries, and a search for
    five neighbours then returns four hits instead of two. *)
Lemma resync_twice_duplicates :
  let s0 := {| db := cats_and_dogs; index := [] |} in
  exists s1 s2,
    server.synchronizeFAISS s0 false = Return s1
    /\ server.synchronizeFAISS s1 false = Return s2
    /\ map hit_docId (FAISS.search (index s1) [1; 0]%float 5) = [1; 2]
    /\ map hit_docId (FAISS.search (index s2) [1; 0]%float 5) = [1; 1; 2; 2]
    /\ FAISS.search (index s2) [1; 0]%float 5 <> FAISS.search (index s1) [1; 0]%float 5.
Proof.
  do 2 eexists.
  split; [vm_compute; reflexivity|]. split; [vm_compute; reflexivity|].
  split; [vm_compute; reflexivity|]. split; [vm_compute; reflexivity|].
  intros H. apply (f_equal (@List.length hit)) in H. vm_compute in H.
  discriminate.
Qed.

(** C3, amended: the synchronisation does not clear the index.  It
    appends one entry per stored row, in the order of the table, to
    what the index already holds.  Run on an empty index, as at process
    start, it leaves exactly the entries of the store; run a second time
    it leaves each of them twice. *)
Theorem resync_appends_the_store
        (docs : list document) (seq : Z) (idx : FAISS.index) :
  let d := {| documents := map stored docs; sqlite_sequence := seq |} in
  server.synchronizeFAISS {| db := d; index := idx |} false
  = Return {| db := d; index := idx ++ map resynced docs |}
  /\ serverArray.synchronizeFAISS {| db := d; index := idx |} false false
     = Return {| db := d; index := idx ++ map resynced_cut docs |}
  /\ server.synchronizeFAISS {| db := d; index := [] |} false
     = Return {| db := d; index := map resynced docs |}
  /\ server.synchronizeFAISS {| db := d; index := map resynced docs |} false
     = Return {| db := d; index := map resynced docs ++ map resynced docs |}.
Proof.
  intros d. unfold server.synchronizeFAISS, serverArray.synchronizeFAISS.
  simpl db. simpl index. subst d. simpl documents.
  rewrite !add_rows_stored, add_rows_cut_stored. repeat split.
  destruct docs as [|doc docs]; [now rewrite app_nil_r|].
  simpl map. simpl List.length.
  destruct (Z.eqb_spec (Z.of_nat (S (List.length (map stored docs)))) 0) as [H|_];
    [lia|reflexivity].
Qed.

(** ** Numbers: the order of binary64 values *)

Lemma valid_Prim2SF (x : JS.number) :
  SpecFloat.valid_binary prec emax (Prim2SF x) = true.
Proof. apply Prim2SF_valid. Qed.

Lemma SFcompare_key (a b : JS.number) :
  not_nan (Prim2SF a) = true -> not_nan (Prim2SF b) = true ->
  SFcompare (Prim2SF a) (Prim2SF b) = Some (key a ?= key b).
Proof.
  intros Ha Hb. apply SFcompare_val; try apply valid_Prim2SF; try assumption;
    reflexivity.
Qed.

Lemma is_nan_spec (x : JS.number) :
  PrimFloat.is_nan x = negb (not_nan (Prim2SF x)).
Proof.
  unfold PrimFloat.is_nan. rewrite eqb_spec. unfold SFeqb.
  destruct (not_nan (Prim2SF x)) eqn:Hx.
  - rewrite SFcompare_key by assumption. now rewrite Z.compare_refl.
  - destruct (Prim2SF x); try discriminate. reflexivity.
Qed.

Lemma not_nan_of_is_nan (x : JS.number) :
  PrimFloat.is_nan x = false -> not_nan (Prim2SF x) = true.
Proof. rewrite is_nan_spec. now destruct (not_nan (Prim2SF x)). Qed.

Lemma ltb_key (a b : JS.number) :
  PrimFloat.is_nan a = false -> PrimFloat.is_nan b = false ->
  PrimFloat.ltb a b = (key a <? key b).
Proof.
  intros Ha%not_nan_of_is_nan Hb%not_nan_of_is_nan.
  rewrite ltb_spec. unfold SFltb. rewrite SFcompare_key by assumption.
  unfold Z.ltb. now destruct (key a ?= key b).
Qed.

Lemma leb_key (a b : JS.number) :
  PrimFloat.is_nan a = false -> PrimFloat.is_nan b = false ->
  PrimFloat.leb a b = (key a <=? key b).
Proof.
  intros Ha%not_nan_of_is_nan Hb%not_nan_of_is_nan.
  rewrite leb_spec. unfold SFleb. rewrite SFcompare_key by assumption.
  unfold Z.leb. now destruct (key a ?= key b).
Qed.

Lemma eqb_key (a b : JS.number) :
  PrimFloat.is_nan a = false -> PrimFloat.is_nan b = false ->
  PrimFloat.eqb a b = (key a =? key b).
Proof.
  intros Ha%not_nan_of_is_nan Hb%not_nan_of_is_nan.
  rewrite eqb_spec. unfold SFeqb. rewrite SFcompare_key by assumption.
  destruct (Z.compare_spec (key a) (key b)); symmetry;
    [apply Z.eqb_eq | apply Z.eqb_neq | apply Z.eqb_neq]; lia.
Qed.

Lemma eqb_nan_r (a x : JS.number) :
  PrimFloat.is_nan x = true -> PrimFloat.eqb a x = false.
Proof.
  rewrite is_nan_spec. intros Hx. rewrite eqb_spec. unfold SFeqb.
  destruct (Prim2SF x); try discriminate. now destruct (Prim2SF a).
Qed.

(** The sign test of the comparator: for numbers that are not [NaN],
    [b - a > 0] exactly when [a < b]. *)
Lemma sub_positive_key (a b : JS.number) :
  PrimFloat.is_nan a = false -> PrimFloat.is_nan b = false ->
  PrimFloat.ltb 0 (b - a) = (key a <? key b).
Proof.
  intros Ha%not_nan_of_is_nan Hb%not_nan_of_is_nan.
  rewrite ltb_spec, sub_spec.
  change (Prim2SF 0) with (S754_zero false).
  apply SFsub_positive; try apply valid_Prim2SF; try assumption; reflexivity.
Qed.

(** ** Ranking: sorting on a score with [(a, b) => b.score - a.score] *)

Lemma In_firstn {A : Type} (x : A) (n : nat) (l : list A) :
  In x (firstn n l) -> In x l.
Proof.
  revert n. induction l as [|a l IH]; intros [|n]; simpl; try tauto.
  intros [->|H]; [now left | right; now apply (IH n)].
Qed.

Lemma StronglySorted_firstn {A : Type} (R : A -> A -> Prop) (n : nat) (l : list A) :
  StronglySorted R l -> StronglySorted R (firstn n l).
Proof.
  intros H. revert n. induction H as [|a l Hl IH Ha]; intros [|n]; simpl;
    try constructor.
  - apply IH.
  - rewrite Forall_forall in *. intros x Hx. apply Ha.
    now apply In_firstn in Hx.
Qed.

Lemma StronglySorted_weaken {A : Type} (R R' : A -> A -> Prop) (P : A -> Prop)
      (l : list A) :
  (forall a b, P a -> P b -> R a b -> R' a b) ->
  Forall P l -> StronglySorted R l -> StronglySorted R' l.
Proof.
  intros HR HP H. induction H as [|a l Hl IH Ha]; constructor.
  - apply IH. now inversion HP.
  - inversion HP as [|? ? Pa Pl]; subst.
    rewrite Forall_forall in *. intros x Hx. apply HR; auto.
Qed.

Section Ranking.
Context {A : Type}.
Variable f : A -> JS.number.
Variable ident : A -> Z.
Variable cmp : A -> A -> JS.number.
Hypothesis cmp_def : forall a b, cmp a b = (f b - f a)%float.

Lemma after_key (a b : A) :
  PrimFloat.is_nan (f a) = false -> PrimFloat.is_nan (f b) = false ->
  JS.after cmp a b = (key (f a) <? key (f b)).
Proof.
  intros Ha Hb. unfold JS.after. rewrite cmp_def.
  now apply sub_positive_key.
Qed.

Lemma numeric_sort (l : list A) : numeric f l -> numeric f (JS.sort cmp l).
Proof.
  unfold numeric. intros H.
  apply (Permutation_Forall (Permutation_sym (sort_perm cmp l)) H).
Qed.

Lemma insert_sorted (a : A) (l : list A) :
  PrimFloat.is_nan (f a) = false -> numeric f l ->
  StronglySorted (ge_key f) l -> StronglySorted (ge_key f) (JS.insert cmp a l).
Proof.
  intros Ha Hn Hs. induction Hs as [|b l Hl IH Hb]; simpl.
  - repeat constructor.
  - inversion Hn as [|? ? Nb Nl]; subst.
    rewrite (after_key a b Ha Nb).
    destruct (Z.ltb_spec (key (f a)) (key (f b))) as [Hlt|Hge].
    + constructor; [now apply IH|].
      apply (Permutation_Forall (Permutation_sym (insert_perm cmp a l))).
      constructor; [unfold ge_key; lia | exact Hb].
    + constructor; [now constructor|].
      constructor; [exact Hge|].
      rewrite Forall_forall in *. intros c Hc. specialize (Hb c Hc).
      unfold ge_key in *. lia.
Qed.

Lemma sort_sorted (l : list A) :
  numeric f l -> StronglySorted (ge_key f) (JS.sort cmp l).
Proof.
  intros Hn. induction Hn as [|a l Ha Hl IH]; simpl.
  - constructor.
  - apply insert_sorted; [exact Ha | now apply numeric_sort | exact IH].
Qed.

(** With the ids ascending before the sort, equal scores come out in
    ascending id. *)
Lemma insert_lex (a : A) (l : list A) :
  PrimFloat.is_nan (f a) = false -> numeric f l ->
  Forall (fun b => ident a < ident b) l ->
  StronglySorted (lex_key f ident) l -> StronglySorted (lex_key f ident) (JS.insert cmp a l).
Proof.
  intros Ha Hn Hid Hs. induction Hs as [|b l Hl IH Hb]; simpl.
  - repeat constructor.
  - inversion Hn as [|? ? Nb Nl]; subst.
    inversion Hid as [|? ? Ib Il]; subst.
    rewrite (after_key a b Ha Nb).
    destruct (Z.ltb_spec (key (f a)) (key (f b))) as [Hlt|Hge].
    + constructor; [now apply IH|].
      apply (Permutation_Forall (Permutation_sym (insert_perm cmp a l))).
      constructor; [left; exact Hlt | exact Hb].
    + constructor; [now constructor|].
      constructor; [unfold lex_key; lia|].
      rewrite Forall_forall in *. intros c Hc.
      specialize (Hb c Hc). specialize (Il c Hc).
      unfold lex_key in *. lia.
Qed.

Lemma sort_lex (l : list A) :
  numeric f l -> StronglySorted (fun a b => ident a < ident b) l ->
  StronglySorted (lex_key f ident) (JS.sort cmp l).
Proof.
  intros Hn Hs. induction Hs as [|a l Hl IH Ha]; simpl.
  - constructor.
  - inversion Hn as [|? ? Na Nl]; subst.
    apply insert_lex; [exact Na | now apply numeric_sort | | now apply IH].
    apply (Permutation_Forall (Permutation_sym (sort_perm cmp l)) Ha).
Qed.

(** The sort is stable: the entries of one score keep their order. *)
Lemma insert_filter (x : JS.number) (a : A) (l : list A) :
  PrimFloat.is_nan (f a) = false -> numeric f l ->
  filter (fun h => PrimFloat.eqb (f h) x) (JS.insert cmp a l)
  = filter (fun h => PrimFloat.eqb (f h) x) (a :: l).
Proof.
  intros Ha Hn. induction Hn as [|b l Nb Nl IH]; [reflexivity|].
  simpl JS.insert. rewrite (after_key a b Ha Nb).
  destruct (Z.ltb_spec (key (f a)) (key (f b))) as [Hlt|Hge]; [|reflexivity].
  cbn [filter] in *. rewrite IH.
  destruct (PrimFloat.is_nan x) eqn:Hx.
  - now rewrite !eqb_nan_r by exact Hx.
  - rewrite (eqb_key (f a) x Ha Hx), (eqb_key (f b) x Nb Hx).
    destruct (Z.eqb_spec (key (f a)) (key x)), (Z.eqb_spec (key (f b)) (key x));
      try reflexivity. lia.
Qed.

Lemma sort_filter (x : JS.number) (l : list A) :
  numeric f l ->
  filter (fun h => PrimFloat.eqb (f h) x) (JS.sort cmp l)
  = filter (fun h => PrimFloat.eqb (f h) x) l.
Proof.
  intros Hn. induction Hn as [|a l Ha Hl IH]; [reflexivity|].
  simpl JS.sort. rewrite insert_filter by (try apply numeric_sort; assumption).
  cbn [filter]. now rewrite IH.
Qed.

End Ranking.

(** ** The index: ranking *)

Lemma by_score_def (a b : hit) : by_score a b = (score b - score a)%float.
Proof. reflexivity. Qed.

Lemma scored_ids_sorted sim (idx : FAISS.index) q :
  StronglySorted Z.lt (map docId idx) ->
  StronglySorted (fun a b => hit_docId a < hit_docId b) (FAISS.scored sim idx q).
Proof.
  induction idx as [|it idx IH]; simpl; intros H; [constructor|].
  inversion H as [|? ? Hs Hf]; subst. constructor; [now apply IH|].
  unfold FAISS.scored. rewrite Forall_map in *. exact Hf.
Qed.

Lemma search_with_firstn sim (idx : FAISS.index) q k :
  exists n, FAISS.search_with sim idx q k
            = firstn n (JS.sort by_score (FAISS.scored sim idx q)).
Proof.
  unfold FAISS.search_with. destruct idx as [|it idx].
  - exists 0%nat. reflexivity.
  - unfold JS.slice0. eexists. reflexivity.
Qed.

(** [FAISS.search] of [serverArray.js], when [math.dot] raises on no
    entry, is the same ranking with the mathjs similarity. *)
Lemma serverArray_search_is_search_with math_dot math_norm2 idx q k hits :
  serverArray.search math_dot math_norm2 idx q k = Return hits ->
  hits = FAISS.search_with
           (fun queryVector vec =>
              match serverArray.cosineSimilarity math_dot math_norm2 vec queryVector with
              | Return sc => sc
              | Throw _ => PrimFloat.nan
              end) idx q k.
Proof.
  set (sim := fun queryVector vec => _).
  assert (Hs : forall l rs, serverArray.score_items math_dot math_norm2 l q = Return rs ->
                            rs = FAISS.scored sim l q).
  { induction l as [|it l IH]; simpl; intros rs H.
    - now inversion H.
    - subst sim. cbv beta.
      destruct (serverArray.cosineSimilarity math_dot math_norm2 (vector it) q);
        [|discriminate].
      destruct (serverArray.score_items math_dot math_norm2 l q); [|discriminate].
      inversion H; subst. f_equal. now apply IH. }
  unfold serverArray.search, FAISS.search_with. destruct idx as [|it idx].
  - intros H. now inversion H.
  - destruct (serverArray.score_items _ _ (it :: idx) q) as [rs|] eqn:Hrs;
      [|discriminate].
    intros H. inversion H; subst. now rewrite (Hs _ _ Hrs).
Qed.

(** C1, as the spec words it, fails: two entries with the same score
    come out in the order they were added, here id 2 before id 1, which
    is not descending score with ties in ascending id. *)
Lemma tie_keeps_insertion_order :
  FAISS.search same_vector_twice [1; 0]%float 2
  = [ {| hit_docId := 2; score := 1%float |};
      {| hit_docId := 1; score := 1%float |} ]
  /\ ~ StronglySorted
         (fun a b => PrimFloat.ltb (score b) (score a) = true
                     \/ (PrimFloat.eqb (score a) (score b) = true
                         /\ hit_docId a < hit_docId b))
         (FAISS.search same_vector_twice [1; 0]%float 2).
Proof.
  assert (H : FAISS.search same_vector_twice [1; 0]%float 2
              = [ {| hit_docId := 2; score := 1%float |};
                  {| hit_docId := 1; score := 1%float |} ])
    by (vm_compute; reflexivity).
  split; [exact H|]. rewrite H. intros Hs.
  inversion Hs as [|a l _ Hall]; subst.
  inversion Hall as [|b l' Hab _]; subst.
  simpl in Hab. destruct Hab as [Hlt|[_ Hid]]; [discriminate|lia].
Qed.

(** C1, amended.  Whenever no score is [NaN], the hits [search]
    returns are the first [min(k, index size)] entries (for [k >= 0]) of
    one arrangement of all the scored entries of the index, and that
    arrangement is by non-increasing score and keeps the entries of
    equal score in the order in which they were added: the sort is
    stable and never compares ids.  So the hits are the best [k], and
    for [k] at least the index size they are all the entries.  Ties
    come out by ascending id when the index holds its entries by
    ascending id, and it does in every state a process of either
    program serves from (synchronisation at start, then requests).
    This holds for every similarity function, that of [server.js] and
    that of [serverArray.js]. *)
Theorem search_ranking
        (sim : list JS.number -> list JS.number -> JS.number)
        (idx : FAISS.index) (q : list JS.number) (k : Z) :
  numeric score (FAISS.scored sim idx q) ->
  let hits := FAISS.search_with sim idx q k in
  let n := Z.of_nat (List.length idx) in
  let by_id_on_ties (a b : hit) :=
    PrimFloat.ltb (score b) (score a) = true
    \/ (PrimFloat.eqb (score a) (score b) = true /\ hit_docId a < hit_docId b) in
  exists rest,
    Permutation (hits ++ rest) (FAISS.scored sim idx q)
    /\ Z.of_nat (List.length hits) = (if k <? 0 then Z.max (n + k) 0 else Z.min k n)
    /\ (n <= k -> rest = [])
    /\ StronglySorted (fun a b => PrimFloat.leb (score b) (score a) = true) (hits ++ rest)
    /\ (forall x,
           filter (fun h => PrimFloat.eqb (score h) x) (hits ++ rest)
           = filter (fun h => PrimFloat.eqb (score h) x) (FAISS.scored sim idx q))
    /\ (StronglySorted Z.lt (map docId idx) -> StronglySorted by_id_on_ties (hits ++ rest))
    /\ (forall p s, served p s -> idx = index s ->
                    StronglySorted by_id_on_ties (hits ++ rest)).
Proof.
  intros Hn hits n by_id_on_ties.
  set (ranking := JS.sort by_score (FAISS.scored sim idx q)).
  assert (Hsn : numeric score ranking) by now apply numeric_sort.
  assert (Hlen : List.length ranking = List.length idx).
  { subst ranking. rewrite sort_length. unfold FAISS.scored. apply length_map. }
  assert (Hcut : exists m, hits = firstn m ranking
                           /\ Z.of_nat (List.length hits)
                              = (if k <? 0 then Z.max (n + k) 0 else Z.min k n)).
  { subst hits n. unfold FAISS.search_with. destruct idx as [|it idx].
    - exists 0%nat. split; [reflexivity|]. simpl. destruct (Z.ltb_spec k 0); lia.
    - fold ranking. unfold JS.slice0. eexists. split; [reflexivity|].
      rewrite length_firstn, Hlen.
      set (len := List.length (it :: idx)).
      destruct (Z.ltb_spec k 0); lia. }
  destruct Hcut as (m & Hhits & Hcount).
  exists (skipn m ranking). rewrite Hhits, firstn_skipn. rewrite <- Hhits.
  assert (Hlex : StronglySorted Z.lt (map docId idx) ->
                 StronglySorted by_id_on_ties ranking).
  { intros Hid.
    apply (StronglySorted_weaken (lex_key score hit_docId) _
             (fun h => PrimFloat.is_nan (score h) = false)); [| exact Hsn |].
    - intros a b Ha Hb [Hlt|[Heq Hlt]].
      + left. rewrite (ltb_key _ _ Hb Ha). now apply Z.ltb_lt.
      + right. split; [|exact Hlt]. rewrite (eqb_key _ _ Ha Hb). now apply Z.eqb_eq.
    - apply (sort_lex score hit_docId by_score by_score_def); [exact Hn|].
      now apply scored_ids_sorted. }
  split; [apply sort_perm|]. split; [exact Hcount|]. split.
  { intros Hk. apply skipn_all2. rewrite Hlen.
    assert (Hm : List.length hits = Nat.min m (List.length ranking))
      by (rewrite Hhits; apply length_firstn).
    destruct (Z.ltb_spec k 0); lia. }
  split.
  { apply (StronglySorted_weaken (ge_key score) _
             (fun h => PrimFloat.is_nan (score h) = false)); [| exact Hsn |].
    - intros a b Ha Hb Hab. rewrite (leb_key _ _ Hb Ha). now apply Z.leb_le.
    - apply (sort_sorted score by_score by_score_def), Hn. }
  split; [intros x; apply (sort_filter score by_score by_score_def), Hn|].
  split; [exact Hlex|].
  intros p s Hs ->. apply Hlex.
  apply (served_in_rowid_order p s Hs).
Qed.

Lemma search_ranking_witness :
  exists rest,
    Permutation (FAISS.search two_docs [3; 1]%float 1 ++ rest)
                (FAISS.scored cosineSimilarity two_docs [3; 1]%float)
    /\ Z.of_nat (List.length (FAISS.search two_docs [3; 1]%float 1)) = 1
    /\ StronglySorted (fun a b => PrimFloat.leb (score b) (score a) = true)
                      (FAISS.search two_docs [3; 1]%float 1 ++ rest).
Proof.
  destruct (search_ranking cosineSimilarity two_docs [3; 1]%float 1)
    as (rest & Hperm & Hcount & _ & Hsorted & _).
  - unfold numeric. vm_compute FAISS.scored. repeat constructor.
  - exists rest. repeat split; assumption.
Defined.

(** ** Retrieval in [server.js]: scoring and ranking the rows *)

Lemma server_by_score_def (a b : ranked) :
  server.by_score a b = (r_score b - r_score a)%float.
Proof. reflexivity. Qed.

(** What the scan of [/search] pushes on [results]: one entry per row,
    in the order of the rows, with the row's id and content and the
    cosine similarity of the query against the row's decoded vector,
    where a zero or [NaN] magnitude gives 0. *)
Lemma score_rows_scores (q : list JS.number) (rows : list row) (results : list ranked) :
  server.score_rows q rows = Return results ->
  exists vectors,
    Forall2 (fun r vec => Float32.of_buffer (vector_blob r) = Some vec) rows vectors
    /\ results
       = map (fun rv =>
                {| r_docId := id (fst rv); r_content := content (fst rv);
                   r_score :=
                     if JS.truthy (PrimFloat.sqrt (sum_of_squares q))
                        && JS.truthy (PrimFloat.sqrt (sum_of_squares (snd rv)))
                     then cosineSimilarity q (snd rv) else 0%float |})
             (combine rows vectors).
Proof.
  revert results. induction rows as [|r rows IH]; simpl; intros results H.
  - inversion H; subst. exists []. split; [constructor|reflexivity].
  - destruct (Float32.of_buffer (vector_blob r)) as [vec|] eqn:Hvec; [|discriminate].
    destruct (server.score_rows q rows) as [rs|]; [|discriminate].
    destruct (IH rs eq_refl) as (vectors & Hdec & Hrs).
    inversion H; subst results. exists (vec :: vectors).
    split; [now constructor|]. simpl. rewrite <- Hrs. reflexivity.
Qed.

(** C10: [/search] of [server.js] never looks at [FAISS.index]: with
    the same database the response, the outside calls and the uncaught
    error are the same whatever the index holds.  A successful response
    is computed from the table alone: every blob is decoded, every row
    is scored by the cosine similarity of the query vector against its
    decoded vector (0 when a magnitude is zero), and the results are
    the first [min(k, rows)] entries (for [k >= 0]) of one arrangement
    of all the scored rows, which is by non-increasing score and stable
    whenever no score is [NaN]; the prompt numbers the contents of the
    results in that order.  With [k] at least the number of rows every
    stored document is among the results. *)
Theorem post_search_scans_the_store
        (d : database) (idx idx' : FAISS.index) (query : option string)
        (k : option Z) (api : outcome (list JS.number)) (db_err : bool)
        (chat : outcome string) :
  let r := server.post_search {| db := d; index := idx |} query k api db_err chat in
  let r' := server.post_search {| db := d; index := idx' |} query k api db_err chat in
  let n := Z.of_nat (List.length (documents d)) in
  let k' := match k with Some given => given | None => 5 end in
  (sent r = sent r' /\ calls r = calls r' /\ uncaught r = uncaught r')
  /\ forall prompt results answer,
      sent r = Some {| status := 200; json := SearchReply prompt results answer |} ->
      exists queryVector vectors rest,
        api = Fulfilled queryVector
        /\ Forall2 (fun row vec => Float32.of_buffer (vector_blob row) = Some vec)
                   (documents d) vectors
        /\ Permutation
             (results ++ rest)
             (map (fun rv =>
                     {| r_docId := id (fst rv); r_content := content (fst rv);
                        r_score :=
                          if JS.truthy (PrimFloat.sqrt (sum_of_squares queryVector))
                             && JS.truthy (PrimFloat.sqrt (sum_of_squares (snd rv)))
                          then cosineSimilarity queryVector (snd rv) else 0%float |})
                  (combine (documents d) vectors))
        /\ Z.of_nat (List.length results)
           = (if k' <? 0 then Z.max (n + k') 0 else Z.min k' n)
        /\ (numeric r_score (results ++ rest) ->
            StronglySorted (fun a b => PrimFloat.leb (r_score b) (r_score a) = true)
                           (results ++ rest)
            /\ forall x,
                filter (fun h => PrimFloat.eqb (r_score h) x) (results ++ rest)
                = filter (fun h => PrimFloat.eqb (r_score h) x)
                         (map (fun rv =>
                                 {| r_docId := id (fst rv); r_content := content (fst rv);
                                    r_score :=
                                      if JS.truthy (PrimFloat.sqrt (sum_of_squares queryVector))
                                         && JS.truthy
                                              (PrimFloat.sqrt (sum_of_squares (snd rv)))
                                      then cosineSimilarity queryVector (snd rv)
                                      else 0%float |})
                              (combine (documents d) vectors)))
        /\ prompt = server.make_prompt (text_of query) results
        /\ (n <= k' -> forall doc, In doc (documents d) -> In (id doc) (map r_docId results)).
Proof.
  intros r r' n k'. subst r r'. unfold server.post_search. cbn [db].
  destruct (missing query); [repeat split; discriminate|].
  destruct (embed.getEmbeddings api) as [queryVector|e] eqn:Hapi;
    [|repeat split; discriminate].
  destruct db_err; [repeat split; discriminate|].
  destruct (server.score_rows queryVector (documents d)) as [rs|e] eqn:Hrs;
    [|repeat split; discriminate].
  fold k'.
  destruct (embed.getAnswer _ _ chat) as [[answer|e] cs];
    [|repeat split; discriminate].
  split; [repeat split|].
  intros prompt results answer' Hsent.
  cbn [respond sent] in Hsent. inversion Hsent; subst prompt results answer'. clear Hsent.
  assert (Hq : api = Fulfilled queryVector)
    by (destruct api; inversion Hapi; reflexivity).
  destruct (score_rows_scores _ _ _ Hrs) as (vectors & Hdec & Hscored).
  set (ranking := JS.sort server.by_score rs).
  assert (Hlen : List.length ranking = List.length (documents d)).
  { subst ranking. rewrite sort_length.
    rewrite <- (length_map r_docId), (score_rows_ids _ _ _ Hrs). apply length_map. }
  exists queryVector, vectors.
  exists (skipn (Z.to_nat (if k' <? 0 then Z.max (Z.of_nat (List.length ranking) + k') 0
                           else Z.min k' (Z.of_nat (List.length ranking)))) ranking).
  unfold JS.slice0. rewrite firstn_skipn.
  split; [exact Hq|]. split; [exact Hdec|].
  split; [rewrite <- Hscored; apply sort_perm|].
  split.
  { rewrite length_firstn, Hlen. subst n.
    set (len := List.length (documents d)).
    destruct (Z.ltb_spec k' 0); lia. }
  split.
  { intros Hnum.
    assert (Hrsn : numeric r_score rs).
    { unfold numeric in *.
      apply (Permutation_Forall (sort_perm server.by_score rs)). exact Hnum. }
    split.
    - apply (StronglySorted_weaken (ge_key r_score) _
               (fun h => PrimFloat.is_nan (r_score h) = false)); [| exact Hnum |].
      + intros a b Ha Hb Hab. rewrite (leb_key _ _ Hb Ha). now apply Z.leb_le.
      + apply (sort_sorted r_score server.by_score server_by_score_def), Hrsn.
    - intros x. rewrite <- Hscored.
      apply (sort_filter r_score server.by_score server_by_score_def), Hrsn. }
  split; [reflexivity|].
  intros Hk doc Hin.
  rewrite firstn_all2.
  - apply (Permutation_in (l := map r_docId rs)).
    + apply Permutation_map, Permutation_sym, sort_perm.
    + rewrite (score_rows_ids _ _ _ Hrs). now apply in_map.
  - rewrite Hlen. subst n. destruct (Z.ltb_spec k' 0); lia.
Qed.

Lemma post_search_scans_the_store_witness :
  let r := server.post_search {| db := cats_and_dogs; index := [] |} (Some "pets")
                              (Some 1) (Fulfilled [0; 1]%float) false (Fulfilled "yes") in
  sent r = Some {| status := 200;
                   json := SearchReply
                             (server.make_prompt "pets"
                                [{| r_docId := 2; r_content := "dogs bark";
                                    r_score := 1%float |}])
                             [{| r_docId := 2; r_content := "dogs bark";
                                 r_score := 1%float |}]
                             (Some "yes") |}
  /\ exists rest,
      Permutation ({| r_docId := 2; r_content := "dogs bark"; r_score := 1%float |} :: rest)
                  [ {| r_docId := 1; r_content := "cats are mammals"; r_score := 0%float |};
                    {| r_docId := 2; r_content := "dogs bark"; r_score := 1%float |} ].
Proof.
  intros r.
  assert (Hsent : sent r
                  = Some {| status := 200;
                            json := SearchReply
                                      (server.make_prompt "pets"
                                         [{| r_docId := 2; r_content := "dogs bark";
                                             r_score := 1%float |}])
                                      [{| r_docId := 2; r_content := "dogs bark";
                                          r_score := 1%float |}]
                                      (Some "yes") |})
    by (vm_compute; reflexivity).
  split; [exact Hsent|].
  destruct (proj2 (post_search_scans_the_store cats_and_dogs [] two_docs (Some "pets")
                     (Some 1) (Fulfilled [0; 1]%float) false (Fulfilled "yes"))
                  _ _ _ Hsent)
    as (queryVector & vectors & rest & Hq & Hdec & Hperm & _).
  exists rest. inversion Hq; subst queryVector.
  assert (Hvectors : vectors = [[1; 0]%float; [0; 1]%float]).
  { inversion Hdec as [|? ? ? ? H1 Hdec']; subst.
    inversion Hdec' as [|? ? ? ? H2 Hdec'']; subst.
    inversion Hdec''; subst.
    vm_compute in H1. vm_compute in H2.
    inversion H1. inversion H2. reflexivity. }
  subst vectors. vm_compute in Hperm. vm_compute. exact Hperm.
Defined.

(** * Further properties of the code *)

(** ** Numbers: how [NaN] and zeros travel through the arithmetic *)

Lemma is_nan_iff (x : JS.number) :
  PrimFloat.is_nan x = true <-> Prim2SF x = S754_nan.
Proof.
  rewrite is_nan_spec. destruct (Prim2SF x); simpl; split; congruence.
Qed.

Lemma add_nan_l (a b : JS.number) :
  PrimFloat.is_nan a = true -> PrimFloat.is_nan (a + b) = true.
Proof.
  rewrite !is_nan_iff, add_spec. intros ->. reflexivity.
Qed.

Lemma add_nan_r (a b : JS.number) :
  PrimFloat.is_nan b = true -> PrimFloat.is_nan (a + b) = true.
Proof.
  rewrite !is_nan_iff, add_spec. intros ->. now destruct (Prim2SF a).
Qed.

Lemma mul_nan_r (a b : JS.number) :
  PrimFloat.is_nan b = true -> PrimFloat.is_nan (a * b) = true.
Proof.
  rewrite !is_nan_iff, mul_spec. intros ->. now destruct (Prim2SF a).
Qed.

Lemma div_nan_l (a b : JS.number) :
  PrimFloat.is_nan a = true -> PrimFloat.is_nan (a / b) = true.
Proof.
  rewrite !is_nan_iff, div_spec. intros ->. reflexivity.
Qed.

(** The dot product of [cosineSimilarity]: once the sum is [NaN] it
    stays [NaN], and it becomes [NaN] at the first index the second
    vector does not have. *)
Lemma dot_stays_nan vecB (arr : list JS.number) (i : nat) (acc : JS.number) :
  PrimFloat.is_nan acc = true ->
  PrimFloat.is_nan
    (JS.reduce_from (fun sum val i => (sum + val * JS.get vecB i)%float) i arr acc)
  = true.
Proof.
  revert i acc. induction arr as [|val arr IH]; intros i acc Hacc; simpl.
  - exact Hacc.
  - apply IH. now apply add_nan_l.
Qed.

Lemma dot_past_the_end vecB (arr : list JS.number) (i : nat) (acc : JS.number) :
  (i <= List.length vecB < i + List.length arr)%nat ->
  PrimFloat.is_nan
    (JS.reduce_from (fun sum val i => (sum + val * JS.get vecB i)%float) i arr acc)
  = true.
Proof.
  revert i acc. induction arr as [|val arr IH]; intros i acc Hlen; simpl in *.
  - lia.
  - destruct (Nat.eq_dec i (List.length vecB)) as [Hi|Hi].
    + apply dot_stays_nan, add_nan_r, mul_nan_r.
      unfold JS.get. rewrite nth_overflow by lia. reflexivity.
    + apply IH. lia.
Qed.

(** X1: a stored vector with fewer components than the query is no
    error for [FAISS.search]: the missing components read as
    [undefined], and the score of that entry is [NaN]. *)
Theorem shorter_vector_scores_nan
        (idx : FAISS.index) (it : item) (queryVector : list JS.number) :
  In it idx ->
  (List.length (vector it) < List.length queryVector)%nat ->
  PrimFloat.is_nan (cosineSimilarity queryVector (vector it)) = true
  /\ exists h, In h (FAISS.search idx queryVector (Z.of_nat (List.length idx)))
               /\ hit_docId h = docId it
               /\ PrimFloat.is_nan (score h) = true.
Proof.
  intros Hin Hlen.
  assert (Hnan : PrimFloat.is_nan (cosineSimilarity queryVector (vector it)) = true).
  { unfold cosineSimilarity. apply div_nan_l. unfold JS.reduce.
    apply dot_past_the_end. lia. }
  split; [exact Hnan|].
  exists {| hit_docId := docId it; score := cosineSimilarity queryVector (vector it) |}.
  split; [|split; [reflexivity|exact Hnan]].
  unfold FAISS.search. rewrite search_with_full.
  apply (Permutation_in _ (Permutation_sym (sort_perm by_score _))).
  unfold FAISS.scored.
  apply (in_map (fun it0 => {| hit_docId := docId it0;
                               score := cosineSimilarity queryVector (vector it0) |})).
  exact Hin.
Qed.

Lemma shorter_vector_scores_nan_witness :
  PrimFloat.is_nan (cosineSimilarity [1; 5]%float [1]%float) = true.
Proof.
  refine (proj1 (shorter_vector_scores_nan
                   [ {| vector := [1]%float; docId := 1 |} ]
                   {| vector := [1]%float; docId := 1 |} [1; 5]%float _ _)).
  - left. reflexivity.
  - simpl. lia.
Defined.

(** *** Zero vectors *)

Lemma zero_of_eqb (x : JS.number) :
  PrimFloat.eqb x 0 = true -> exists s, Prim2SF x = S754_zero s.
Proof.
  rewrite eqb_spec. change (Prim2SF 0) with (S754_zero false).
  unfold SFeqb. destruct (Prim2SF x) as [s|s| |s m e]; simpl; try discriminate.
  - intros _. now exists s.
  - destruct s; discriminate.
  - destruct s; discriminate.
Qed.

Lemma SFmul_zero_r (x y : spec_float) :
  zero_or_nan y = true -> zero_or_nan (SF64mul x y) = true.
Proof. destruct y; try discriminate; destruct x; reflexivity. Qed.

Lemma SFmul_zero_l (x y : spec_float) :
  zero_or_nan x = true -> zero_or_nan (SF64mul x y) = true.
Proof. destruct x; try discriminate; destruct y; reflexivity. Qed.

Lemma SFadd_zero (x y : spec_float) :
  zero_or_nan x = true -> zero_or_nan y = true -> zero_or_nan (SF64add x y) = true.
Proof.
  destruct x as [sx| | |]; try discriminate; destruct y as [sy| | |];
    try discriminate; try reflexivity.
  destruct sx, sy; reflexivity.
Qed.

Lemma SFdiv_zero (x y : spec_float) :
  zero_or_nan x = true -> zero_or_nan y = true -> SF64div x y = S754_nan.
Proof.
  destruct x; try discriminate; destruct y; try discriminate; reflexivity.
Qed.

Lemma get_zero_or_nan (vec : list JS.number) (i : nat) :
  Forall (fun x => PrimFloat.eqb x 0 = true) vec ->
  zero_or_nan (Prim2SF (JS.get vec i)) = true.
Proof.
  intros Hz. unfold JS.get.
  destruct (Nat.lt_ge_cases i (List.length vec)) as [Hi|Hi].
  - rewrite Forall_forall in Hz.
    destruct (zero_of_eqb _ (Hz _ (nth_In vec PrimFloat.nan Hi))) as [s ->].
    reflexivity.
  - rewrite nth_overflow by exact Hi. reflexivity.
Qed.

(** The dot product against, or of, a vector of zeros is a zero or [NaN]. *)
Lemma dot_zero_r vecB (arr : list JS.number) (i : nat) (acc : JS.number) :
  Forall (fun x => PrimFloat.eqb x 0 = true) vecB ->
  zero_or_nan (Prim2SF acc) = true ->
  zero_or_nan
    (Prim2SF (JS.reduce_from (fun sum val i => (sum + val * JS.get vecB i)%float)
                             i arr acc)) = true.
Proof.
  intros Hz. revert i acc. induction arr as [|val arr IH]; intros i acc Hacc; simpl.
  - exact Hacc.
  - apply IH. rewrite add_spec, mul_spec.
    apply SFadd_zero; [exact Hacc|]. apply SFmul_zero_r, get_zero_or_nan, Hz.
Qed.

Lemma dot_zero_l vecB (arr : list JS.number) (i : nat) (acc : JS.number) :
  Forall (fun x => PrimFloat.eqb x 0 = true) arr ->
  zero_or_nan (Prim2SF acc) = true ->
  zero_or_nan
    (Prim2SF (JS.reduce_from (fun sum val i => (sum + val * JS.get vecB i)%float)
                             i arr acc)) = true.
Proof.
  intros Hz. revert i acc. induction Hz as [|val arr Hval Hz IH]; intros i acc Hacc; simpl.
  - exact Hacc.
  - apply IH. rewrite add_spec, mul_spec.
    apply SFadd_zero; [exact Hacc|]. apply SFmul_zero_l.
    destruct (zero_of_eqb _ Hval) as [s ->]. reflexivity.
Qed.

Lemma magnitude_zero (vec : list JS.number) :
  Forall (fun x => PrimFloat.eqb x 0 = true) vec ->
  Prim2SF (PrimFloat.sqrt (sum_of_squares vec)) = S754_zero false.
Proof.
  intros Hz. rewrite sqrt_spec. unfold sum_of_squares, JS.reduce.
  assert (H : forall i acc, Prim2SF acc = S754_zero false ->
                Prim2SF (JS.reduce_from (fun sum val _ => (sum + val * val)%float)
                                        i vec acc) = S754_zero false).
  { induction Hz as [|val vec Hval Hz IH]; intros i acc Hacc; simpl.
    - exact Hacc.
    - apply IH. rewrite add_spec, mul_spec, Hacc.
      destruct (zero_of_eqb _ Hval) as [s ->]. now destruct s. }
  rewrite (H 0%nat 0%float eq_refl). reflexivity.
Qed.

(** X2: when the query or a stored vector holds only zeros, the score
    [FAISS.search] computes for the entry is [NaN] whatever the other
    vector is, and the scoring function of [/search] in [server.js]
    gives [0]. *)
Theorem zero_vector_score (vecA vecB : list JS.number) :
  Forall (fun x => PrimFloat.eqb x 0 = true) vecA
  \/ Forall (fun x => PrimFloat.eqb x 0 = true) vecB ->
  PrimFloat.is_nan (cosineSimilarity vecA vecB) = true
  /\ server.cosineSimilarity vecA vecB = 0%float.
Proof.
  intros Hz. split.
  - apply is_nan_iff. unfold cosineSimilarity. rewrite div_spec.
    apply SFdiv_zero.
    + unfold JS.reduce. destruct Hz as [Hz|Hz];
        [apply dot_zero_l | apply dot_zero_r]; trivial.
    + rewrite mul_spec. destruct Hz as [Hz|Hz].
      * apply SFmul_zero_l. now rewrite (magnitude_zero _ Hz).
      * apply SFmul_zero_r. now rewrite (magnitude_zero _ Hz).
  - apply guarded_similarity_zero.
    destruct Hz as [Hz|Hz]; [left|right];
      rewrite eqb_spec, (magnitude_zero _ Hz); reflexivity.
Qed.

Lemma zero_vector_score_witness :
  PrimFloat.is_nan (cosineSimilarity [3; 1]%float [0; 0]%float) = true
  /\ server.cosineSimilarity [3; 1]%float [0; 0]%float = 0%float.
Proof.
  apply zero_vector_score. right. repeat constructor.
Defined.

(** *** The order of the two arguments *)

Lemma mul_comm (x y : JS.number) : (x * y)%float = (y * x)%float.
Proof.
  apply Prim2SF_inj. rewrite !mul_spec.
  destruct (Prim2SF x) as [sx|sx| |sx mx ex], (Prim2SF y) as [sy|sy| |sy my ey];
    unfold SF64mul, SFmul; try rewrite (xorb_comm sx sy); try reflexivity.
  now rewrite Pos.mul_comm, Z.add_comm.
Qed.

Lemma dot_comm (p q a b : list JS.number) (acc : JS.number) :
  List.length p = List.length q -> List.length a = List.length b ->
  JS.reduce_from (fun sum val i => (sum + val * JS.get (q ++ b) i)%float)
                 (List.length p) a acc
  = JS.reduce_from (fun sum val i => (sum + val * JS.get (p ++ a) i)%float)
                   (List.length q) b acc.
Proof.
  revert p q b acc. induction a as [|x a IH]; intros p q [|y b] acc Hpq Hab;
    try discriminate; [reflexivity|].
  simpl JS.reduce_from.
  assert (Hy : JS.get (q ++ y :: b) (List.length p) = y)
    by (unfold JS.get; rewrite Hpq; apply nth_middle).
  assert (Hx : JS.get (p ++ x :: a) (List.length q) = x)
    by (unfold JS.get; rewrite <- Hpq; apply nth_middle).
  rewrite Hy, Hx, (mul_comm x y).
  specialize (IH (p ++ [x]) (q ++ [y]) b (acc + y * x)%float).
  rewrite !length_app, <- !app_assoc in IH. simpl in IH.
  rewrite !Nat.add_1_r in IH.
  apply IH; [now rewrite Hpq | now inversion Hab].
Qed.

(** X3: for vectors of the same length, [cosineSimilarity] of
    [server.js] (the one in [FAISS.search] and the one in [/search])
    gives the same number whichever vector is passed first. *)
Theorem cosineSimilarity_symmetric (vecA vecB : list JS.number) :
  List.length vecA = List.length vecB ->
  cosineSimilarity vecA vecB = cosineSimilarity vecB vecA
  /\ server.cosineSimilarity vecA vecB = server.cosineSimilarity vecB vecA.
Proof.
  intros Hlen.
  pose proof (dot_comm [] [] vecA vecB 0%float eq_refl Hlen) as Hdot.
  simpl in Hdot.
  unfold cosineSimilarity, server.cosineSimilarity, JS.reduce.
  rewrite Hdot, (mul_comm (PrimFloat.sqrt (sum_of_squares vecA))).
  rewrite (andb_comm (JS.truthy (PrimFloat.sqrt (sum_of_squares vecA)))).
  split; reflexivity.
Qed.

Lemma cosineSimilarity_symmetric_witness :
  cosineSimilarity [3; 1]%float [1; 0]%float = cosineSimilarity [1; 0]%float [3; 1]%float.
Proof.
  apply (proj1 (cosineSimilarity_symmetric [3; 1]%float [1; 0]%float eq_refl)).
Defined.

(** ** The index: how many hits *)

(** X4: [search] returns [min(k, index size)] hits for [k >= 0], and
    for a negative [k] as many as the index has beyond the last [-k]. *)
Theorem search_length
        (sim : list JS.number -> list JS.number -> JS.number)
        (idx : FAISS.index) (q : list JS.number) (k : Z) :
  let n := Z.of_nat (List.length idx) in
  Z.of_nat (List.length (FAISS.search_with sim idx q k))
  = if k <? 0 then Z.max (n + k) 0 else Z.min k n.
Proof.
  intros n. subst n. unfold FAISS.search_with. destruct idx as [|it idx].
  - simpl. destruct (Z.ltb_spec k 0); lia.
  - unfold JS.slice0. rewrite length_firstn, sort_length.
    unfold FAISS.scored. rewrite length_map.
    set (n := List.length (it :: idx)).
    destruct (Z.ltb_spec k 0); lia.
Qed.

(** ** Retrieval: the requests [/search] sends out *)

(** X5: the outside calls of one [/search].  Without a query there is
    none.  Otherwise the embedding of the query is asked for first, and
    the chat endpoint is called at most once after it, never with a
    text of more than 10000 characters.  In [server.js] the text is
    the template of [getAnswer] filled with the prompt as context and
    the word "undefined" as question; whenever that call is made the
    response has status 200, and it never has otherwise.  In
    [serverArray.js] the template is filled with the context and the
    query, and the response has status 200 when the call is fulfilled
    and 500 when it is rejected; without the call it is 500.  A text
    that would be too long is not sent: in [server.js] the message
    "Prompt is too long", with the length, is then the uncaught error
    that ends the process. *)
Theorem search_outside_calls
        (s : state) (query : option string) (k : option Z)
        (api : outcome (list JS.number)) (chat : outcome string)
        (db_err : bool) (db_err' : option string)
        (math_dot : list JS.number -> list JS.number -> completion JS.number)
        (math_norm2 : list JS.number -> JS.number) :
  let r := server.post_search s query k api db_err chat in
  let r' := serverArray.post_search math_dot math_norm2 s query k api db_err' chat in
  let q := text_of query in
  let too_long (text : string) :=
    ("Prompt is too long: " ++ nat_to_string (String.length text) ++ " characters")%string in
  (calls r = [] /\ missing query = true
   \/ calls r = [EmbeddingsCreate q]
      /\ option_map status (sent r) <> Some 200
      /\ (forall e, uncaught r = Some e ->
            e = "RangeError: byte length of Float32Array should be a multiple of 4"
            \/ exists topResults,
                let text := embed.template (server.make_prompt q topResults) "undefined" in
                10000 < Z.of_nat (String.length text) /\ e = too_long text)
   \/ exists topResults,
       let text := embed.template (server.make_prompt q topResults) "undefined" in
       calls r = [EmbeddingsCreate q; ChatCompletionsCreate text]
       /\ Z.of_nat (String.length text) <= 10000
       /\ option_map status (sent r) = Some 200)
  /\ (calls r' = [] /\ missing query = true
      \/ calls r' = [EmbeddingsCreate q]
         /\ (exists e, sent r' = Some {| status := 500;
                                         json := Error "Error processing query." (Some e) |})
      \/ exists context,
          let text := embedArray.template context q in
          calls r' = [EmbeddingsCreate q; ChatCompletionsCreate text]
          /\ Z.of_nat (String.length text) <= 10000
          /\ option_map status (sent r')
             = Some (match chat with Fulfilled _ => 200 | Rejected => 500 end)).
Proof.
  intros r r' q too_long. split.
  - subst r. unfold server.post_search.
    destruct (missing query) eqn:Hm; [left; now split|]. right.
    destruct (embed.getEmbeddings api) as [queryVector|e].
    2:{ left. repeat split; discriminate. }
    destruct db_err; [left; repeat split; discriminate|].
    destruct (server.score_rows queryVector (documents (db s))) as [results|e] eqn:Hrows.
    2:{ left. cbn [crash calls sent uncaught option_map].
        split; [reflexivity|]. split; [discriminate|].
        intros e' He'. left. inversion He'; subst e'. clear He'.
        revert e Hrows. generalize (documents (db s)).
        induction l as [|row rows IH]; simpl; intros e Hthrow; [discriminate|].
        destruct (Float32.of_buffer (vector_blob row)); [|now inversion Hthrow].
        destruct (server.score_rows queryVector rows) as [rs|e'];
          [discriminate|].
        inversion Hthrow; subst e'. now apply (IH e). }
    unfold embed.getAnswer.
    set (topResults := JS.slice0 (JS.sort server.by_score results) _).
    fold q.
    destruct (Z.ltb_spec 10000
                (Z.of_nat (String.length
                   (embed.template (server.make_prompt q topResults) "undefined"))))
      as [Hlong|Hshort].
    + left. cbn [crash calls sent uncaught option_map]. rewrite app_nil_r.
      split; [reflexivity|]. split; [discriminate|].
      intros e He. right. exists topResults. cbv zeta. split; [exact Hlong|].
      inversion He. reflexivity.
    + right. exists topResults. cbv zeta.
      destruct chat; cbn [respond calls sent option_map status app];
        repeat split; assumption.
  - subst r'. unfold serverArray.post_search.
    destruct (missing query) eqn:Hm; [left; now split|]. right.
    destruct (embedArray.getEmbeddings api) as [queryVector|e].
    2:{ left. split; [reflexivity|]. now exists e. }
    destruct (serverArray.search _ _ _ _ _) as [hits|e].
    2:{ left. split; [reflexivity|]. now exists e. }
    destruct db_err' as [e|]; [left; split; [reflexivity|]; now exists e|].
    fold q. unfold embedArray.getAnswer.
    set (context := serverArray.make_context _ _).
    destruct (Z.ltb_spec 10000
                (Z.of_nat (String.length (embedArray.template context q))))
      as [Hlong|Hshort].
    + left. cbn [respond calls sent]. rewrite app_nil_r.
      split; [reflexivity|]. eexists. reflexivity.
    + right. exists context. cbv zeta.
      destruct chat; cbn [respond calls sent option_map status app];
        repeat split; assumption.
Qed.

(** ** Retrieval: what [/search] leaves and answers *)



(** ** Ingestion: what [/add] writes *)

(** X8: what [/add] of [server.js] writes.  When it answers "Document
    added." the table has grown by exactly one row (the content, the
    vector as 32-bit floats) and the index by exactly one entry (the
    vector as received), both under the id the insert took, which no
    row had before.  When it answers "Document already exists." the
    rows and the index are as they were, and the counter of
    [AUTOINCREMENT] has moved to the id the ignored insert took.  In
    every other case the state is as it was. *)
Theorem post_add_effect
        (s : state) (field : option string)
        (api : outcome (list JS.number)) (db_err : bool) :
  let r := server.post_add s field api db_err in
  let rowid := Z.max (sqlite_sequence (db s)) (max_rowid (documents (db s))) + 1 in
  (after r = s
   /\ (exists message details,
          sent r = Some {| status := 400; json := Error message details |}
          \/ sent r = Some {| status := 500; json := Error message details |}))
  \/ (exists c vec,
         field = Some c /\ api = Fulfilled vec
         /\ In c (map content (documents (db s)))
         /\ sent r = Some {| status := 200;
                             json := Message "Document already exists." None |}
         /\ documents (db (after r)) = documents (db s)
         /\ index (after r) = index s
         /\ sqlite_sequence (db (after r)) = rowid)
  \/ (exists c vec,
         field = Some c /\ api = Fulfilled vec
         /\ ~ In c (map content (documents (db s)))
         /\ sent r = Some {| status := 200;
                             json := Message "Document added." (Some rowid) |}
         /\ documents (db (after r))
            = documents (db s)
                ++ [{| id := rowid; content := c;
                       vector_blob := Float32.to_buffer vec |}]
         /\ index (after r) = index s ++ [{| vector := vec; docId := rowid |}]
         /\ sqlite_sequence (db (after r)) = rowid
         /\ Forall (fun i => i < rowid) (map id (documents (db s)))).
Proof.
  intros r rowid. subst r. unfold server.post_add.
  destruct (missing field) eqn:Hm.
  { left. split; [reflexivity|]. do 2 eexists. left. reflexivity. }
  destruct api as [vec|]; cbn [embed.getEmbeddings].
  2:{ left. split; [reflexivity|]. do 2 eexists. right. reflexivity. }
  destruct db_err.
  { left. split; [reflexivity|]. do 2 eexists. right. reflexivity. }
  destruct field as [c|]; [|discriminate]. cbn [text_of].
  unfold insert_or_ignore. fold rowid.
  destruct (has_content c (documents (db s))) eqn:Hhas.
  - right. left. exists c, vec. repeat split.
    now apply has_content_In.
  - right. right. exists c, vec. repeat split.
    + intros Hin. apply has_content_In in Hin. congruence.
    + apply Forall_forall. intros i Hi. now apply rowid_above.
Qed.

(** X9: every [/add], in both servers and whatever the embedding
    endpoint and the database do, keeps the contents unique, the ids
    unique and the index aligned with the table (one entry per row, in
    the order of the rows). *)
Theorem post_add_keeps_alignment
        (s : state) (field : option string)
        (api : outcome (list JS.number)) (db_err : bool) :
  well_formed s ->
  well_formed (after (server.post_add s field api db_err))
  /\ well_formed (after (serverArray.post_add s field api db_err)).
Proof.
  intros Hwf. split; [now apply post_add_well_formed|].
  unfold serverArray.post_add.
  destruct (missing field) eqn:Hm; [exact Hwf|].
  destruct api as [vec|]; cbn [embedArray.getEmbeddings]; [|exact Hwf].
  destruct db_err; [exact Hwf|].
  destruct field as [c|]; [|discriminate]. cbn [text_of].
  destruct Hwf as (Hc & Hi & Hx).
  destruct (has_content c (documents (db s))) eqn:Hhas.
  - rewrite (insert_or_ignore_present _ _ _ Hhas). simpl.
    repeat split; assumption.
  - destruct (insert_or_ignore_fresh (db s) c (Float32.to_buffer vec) Hhas)
      as (rowid & -> & Hfresh).
    simpl. unfold well_formed, serverArray.add. simpl.
    rewrite !map_app. simpl. repeat split.
    + apply NoDup_snoc; [exact Hc|].
      intros Hin. apply has_content_In in Hin. congruence.
    + now apply NoDup_snoc.
    + now rewrite Hx.
Qed.

Lemma post_add_keeps_alignment_witness :
  well_formed (after (server.post_add empty_state (Some "dogs bark")
                                      (Fulfilled [0; 1]%float) false))
  /\ well_formed (after (serverArray.post_add empty_state (Some "dogs bark")
                                              (Fulfilled [0; 1]%float) false)).
Proof.
  apply post_add_keeps_alignment.
  unfold well_formed, empty_state; simpl. repeat split; constructor.
Defined.

(** X10: the synchronisation at process start, run on the empty index
    over a table with unique contents and ids, leaves the index aligned
    with the table whenever it completes without a database error, in
    both servers. *)
Theorem synchronizeFAISS_aligns (d : database) :
  NoDup (map content (documents d)) -> NoDup (map id (documents d)) ->
  (forall s', server.synchronizeFAISS {| db := d; index := [] |} false = Return s' ->
              well_formed s')
  /\ (forall s', serverArray.synchronizeFAISS {| db := d; index := [] |} false false
                 = Return s' ->
                 well_formed s').
Proof.
  intros Hc Hi. split; intros s' H'; [now apply (synchronizeFAISS_well_formed d)|].
  unfold serverArray.synchronizeFAISS in H'. simpl in H'.
  destruct (documents d) as [|r rows] eqn:Hd.
  - simpl in H'. inversion H'; subst. unfold well_formed. simpl.
    rewrite Hd. repeat split; constructor.
  - destruct (Z.eqb_spec (Z.of_nat (List.length (r :: rows))) 0) as [H0|_];
      [simpl in H0; lia|].
    destruct (serverArray.add_rows (r :: rows) []) as [idx|] eqn:Hrows;
      [|discriminate].
    inversion H'; subst. apply add_rows_cut_ids in Hrows.
    unfold well_formed. simpl. rewrite Hd. repeat split; assumption.
Qed.

Lemma synchronizeFAISS_aligns_witness :
  well_formed {| db := cats_and_dogs;
                 index := [ {| vector := [1; 0]%float; docId := 1 |};
                            {| vector := [0; 1]%float; docId := 2 |} ] |}.
Proof.
  refine (proj1 (synchronizeFAISS_aligns cats_and_dogs _ _) _ _).
  - simpl. repeat constructor; simpl; intuition discriminate.
  - simpl. repeat constructor; simpl; intuition discriminate.
  - vm_compute. reflexivity.
Defined.

(** ** The stored encoding: lengths *)

Lemma to_buffer_length (vec : list JS.number) :
  List.length (Float32.to_buffer vec) = (4 * List.length vec)%nat.
Proof.
  unfold Float32.to_buffer. induction vec as [|x vec IH]; [reflexivity|].
  cbn [flat_map]. rewrite length_app, IH. unfold Float32.word_bytes.
  simpl List.length. lia.
Qed.

Lemma of_buffer_length_bounded (n : nat) (buf : list byte) :
  (List.length buf <= n)%nat ->
  match Float32.of_buffer buf with
  | Some vec => List.length buf = (4 * List.length vec)%nat
  | None => (List.length buf mod 4 <> 0)%nat
  end.
Proof.
  revert buf. induction n as [|n IH]; intros buf Hn.
  - destruct buf; [reflexivity|simpl in Hn; lia].
  - destruct buf as [|b0 [|b1 [|b2 [|b3 rest]]]]; try (simpl; discriminate);
      [reflexivity|].
    cbn [Float32.of_buffer].
    specialize (IH rest ltac:(simpl in Hn; lia)).
    destruct (Float32.of_buffer rest) as [vec|]; cbn [option_map].
    + simpl List.length. lia.
    + change (List.length (b0 :: b1 :: b2 :: b3 :: rest))
        with (4 + List.length rest)%nat.
      replace (4 + List.length rest)%nat with (List.length rest + 1 * 4)%nat by lia.
      rewrite Nat.Div0.mod_add. exact IH.
Qed.

(** X11: a blob reads back as a vector exactly when its byte length is
    a multiple of 4, and then as one number per 4 bytes; otherwise
    [new Float32Array] raises.  What [/add] writes has 4 bytes per
    component. *)
Theorem of_buffer_length (buf : list byte) (vec : list JS.number) :
  match Float32.of_buffer buf with
  | Some decoded => List.length buf = (4 * List.length decoded)%nat
  | None => (List.length buf mod 4 <> 0)%nat
  end
  /\ List.length (Float32.to_buffer vec) = (4 * List.length vec)%nat.
Proof.
  split; [apply (of_buffer_length_bounded (List.length buf)); lia|].
  apply to_buffer_length.
Qed.

(** ** What [/search] leaves behind *)

Lemma of_buffer_none_iff (buf : list byte) :
  Float32.of_buffer buf = None <-> (List.length buf mod 4 <> 0)%nat.
Proof.
  pose proof (of_buffer_length_bounded _ buf (Nat.le_refl _)) as H.
  destruct (Float32.of_buffer buf) as [vec|]; split; intros H'; try assumption;
    try discriminate; try reflexivity.
  exfalso. apply H'. rewrite H, Nat.mul_comm. apply Nat.Div0.mod_mul.
Qed.

Lemma score_rows_throws (q : list JS.number) (rows : list row) :
  (exists e, server.score_rows q rows = Throw e)
  <-> Exists (fun r => (List.length (vector_blob r) mod 4 <> 0)%nat) rows.
Proof.
  induction rows as [|r rows IH]; simpl.
  - split; [intros [e He]; discriminate | intros H; inversion H].
  - destruct (Float32.of_buffer (vector_blob r)) as [vec|] eqn:Hvec.
    + assert (Hok : ~ (List.length (vector_blob r) mod 4 <> 0)%nat).
      { intros Hbad. apply of_buffer_none_iff in Hbad. congruence. }
      destruct (server.score_rows q rows) as [results|e'].
      * split; [intros [e He]; discriminate|].
        intros H. inversion H as [? ? Hr|? ? Hr]; subst; [contradiction|].
        apply IH in Hr. destruct Hr as [e He]. discriminate.
      * split; [|intros _; now exists e'].
        intros _. apply Exists_cons_tl, IH. now exists e'.
    + split; [|intros _; eexists; reflexivity].
      intros _. apply Exists_cons_hd. now apply of_buffer_none_iff.
Qed.

(** X6: [/search] writes nothing, but in [server.js] it can end the
    process.  In [serverArray.js] the handler never leaves an error
    uncaught and the state after it is the state before.  In
    [server.js] the database is always as before; either a response is
    sent and the index is as before too, or an error is left uncaught,
    no response is sent and the index is lost with the process.  That
    happens exactly when the query is there, its embedding arrived and
    the scan succeeded, and then a stored blob has a byte length that
    is no multiple of 4 or the prompt built from the documents makes
    the text for the chat endpoint longer than 10000 characters. *)
Theorem post_search_state
        (s : state) (query : option string) (k : option Z)
        (api : outcome (list JS.number)) (chat : outcome string)
        (db_err : bool) (db_err' : option string)
        (math_dot : list JS.number -> list JS.number -> completion JS.number)
        (math_norm2 : list JS.number -> JS.number) :
  let r := server.post_search s query k api db_err chat in
  let r' := serverArray.post_search math_dot math_norm2 s query k api db_err' chat in
  let rows := documents (db s) in
  let too_long (queryVector : list JS.number) :=
    forall results, server.score_rows queryVector rows = Return results ->
      10000 < Z.of_nat (String.length
                          (embed.template
                             (server.make_prompt
                                (text_of query)
                                (JS.slice0 (JS.sort server.by_score results)
                                           match k with Some n => n | None => 5 end))
                             "undefined")) in
  (after r' = s /\ uncaught r' = None /\ sent r' <> None)
  /\ db (after r) = db s
  /\ (uncaught r = None /\ sent r <> None /\ after r = s
      \/ uncaught r <> None /\ sent r = None /\ index (after r) = [])
  /\ (uncaught r <> None
      <-> missing query = false /\ db_err = false
          /\ exists queryVector,
              api = Fulfilled queryVector
              /\ (Exists (fun row => (List.length (vector_blob row) mod 4 <> 0)%nat) rows
                  \/ too_long queryVector)).
Proof.
  intros r r' rows too_long. split.
  { subst r'. unfold serverArray.post_search.
    destruct (missing query); [repeat split; discriminate|].
    destruct (embedArray.getEmbeddings api); [|repeat split; discriminate].
    destruct (serverArray.search _ _ _ _ _); [|repeat split; discriminate].
    destruct db_err'; [repeat split; discriminate|].
    destruct (embedArray.getAnswer _ _ chat) as [[answer|e] cs];
      repeat split; discriminate. }
  assert (Hsaid : forall code b cs,
             uncaught (respond code b s cs) = None
             /\ sent (respond code b s cs) <> None
             /\ after (respond code b s cs) = s)
    by (intros; repeat split; discriminate).
  subst r too_long rows. unfold server.post_search.
  destruct (missing query) eqn:Hm.
  { split; [reflexivity|]. split; [left; apply Hsaid|].
    split; [intros H; now contradiction H | intros [H _]; discriminate]. }
  destruct api as [queryVector|]; cbn [embed.getEmbeddings].
  2:{ split; [reflexivity|]. split; [left; apply Hsaid|].
      split; [intros H; now contradiction H | intros (_ & _ & qv & H & _); discriminate]. }
  destruct db_err.
  { split; [reflexivity|]. split; [left; apply Hsaid|].
    split; [intros H; now contradiction H | intros (_ & H & _); discriminate]. }
  pose proof (score_rows_throws queryVector (documents (db s))) as Hthrows.
  destruct (server.score_rows queryVector (documents (db s))) as [results|e] eqn:Hrows.
  - assert (Hfine : ~ Exists (fun row => (List.length (vector_blob row) mod 4 <> 0)%nat)
                        (documents (db s))).
    { intros Hbad. apply Hthrows in Hbad. destruct Hbad as [e He]. discriminate. }
    unfold embed.getAnswer.
    destruct (Z.ltb_spec 10000
                (Z.of_nat (String.length
                   (embed.template
                      (server.make_prompt (text_of query)
                         (JS.slice0 (JS.sort server.by_score results)
                                    match k with Some n => n | None => 5 end))
                      "undefined")))) as [Hlong|Hshort].
    + split; [reflexivity|]. split; [right; repeat split; discriminate|].
      split; [|intros _; discriminate].
      intros _. split; [reflexivity|]. split; [reflexivity|].
      exists queryVector. split; [reflexivity|]. right.
      intros results' Hr. rewrite Hrows in Hr. inversion Hr; subst. exact Hlong.
    + assert (Hlive : forall answer cs,
                 uncaught (respond 200 answer s cs) <> None
                 <-> false = false /\ false = false
                     /\ exists qv, Fulfilled queryVector = Fulfilled qv
                          /\ (Exists (fun row =>
                                        (List.length (vector_blob row) mod 4 <> 0)%nat)
                                     (documents (db s))
                              \/ forall results',
                                  server.score_rows qv (documents (db s))
                                  = Return results' ->
                                  10000 < Z.of_nat (String.length
                                     (embed.template
                                        (server.make_prompt (text_of query)
                                           (JS.slice0 (JS.sort server.by_score results')
                                              match k with Some n => n | None => 5 end))
                                        "undefined")))).
      { intros answer cs. split; [intros H; now contradiction H|].
        intros (_ & _ & qv & Hqv & [Hbad|Hlong]); [contradiction|].
        inversion Hqv; subst qv.
        specialize (Hlong results Hrows). lia. }
      destruct chat as [answer|];
        (split; [reflexivity|]; split; [left; apply Hsaid|]; apply Hlive).
  - split; [reflexivity|]. split; [right; repeat split; discriminate|].
    split; [|intros _; discriminate].
    intros _. split; [reflexivity|]. split; [reflexivity|].
    exists queryVector. split; [reflexivity|]. left.
    apply Hthrows. now exists e.
Qed.

(** ** [serverArray.js]: five components *)

Lemma slice0_length_le {A : Type} (l : list A) (k : Z) :
  0 <= k -> Z.of_nat (List.length (JS.slice0 l k)) <= k.
Proof.
  intros Hk. unfold JS.slice0. rewrite length_firstn.
  destruct (Z.ltb_spec k 0); lia.
Qed.

Lemma add_rows_cut_short rows idx idx' :
  Forall (fun it => Z.of_nat (List.length (vector it)) <= serverArray.ALENGTH) idx ->
  serverArray.add_rows rows idx = Return idx' ->
  Forall (fun it => Z.of_nat (List.length (vector it)) <= serverArray.ALENGTH) idx'.
Proof.
  revert idx. induction rows as [|r rows IH]; simpl; intros idx Hidx H.
  - now inversion H; subst.
  - destruct (Float32.of_buffer (vector_blob r)); [|discriminate].
    refine (IH _ _ H). unfold serverArray.add.
    apply Forall_app. split; [exact Hidx|]. constructor; [|constructor].
    apply slice0_length_le. unfold serverArray.ALENGTH. lia.
Qed.

(** X12: the index of [serverArray.js] never holds a vector of more
    than [ALENGTH = 5] components: [/add] and the synchronisation keep
    that bound, while the table receives every component of the
    embedding (4 bytes each). *)
Theorem serverArray_index_is_cut
        (s : state) (field : option string)
        (api : outcome (list JS.number)) (db_err count_err all_err : bool) :
  Forall (fun it => Z.of_nat (List.length (vector it)) <= serverArray.ALENGTH) (index s) ->
  Forall (fun it => Z.of_nat (List.length (vector it)) <= serverArray.ALENGTH)
         (index (after (serverArray.post_add s field api db_err)))
  /\ (forall s', serverArray.synchronizeFAISS s count_err all_err = Return s' ->
                 Forall (fun it => Z.of_nat (List.length (vector it))
                                   <= serverArray.ALENGTH) (index s'))
  /\ (forall vec c lastID,
         sent (serverArray.post_add s field api db_err)
         = Some {| status := 200; json := Message "Document added." (Some lastID) |} ->
         field = Some c -> api = Fulfilled vec ->
         exists r, In r (documents (db (after (serverArray.post_add s field api db_err))))
                   /\ id r = lastID
                   /\ List.length (vector_blob r) = (4 * List.length vec)%nat).
Proof.
  intros Hidx. split; [|split].
  - unfold serverArray.post_add.
    destruct (missing field); [exact Hidx|].
    destruct (embedArray.getEmbeddings api) as [vec|]; [|exact Hidx].
    destruct db_err; [exact Hidx|].
    destruct (insert_or_ignore _ _ _) as [d [lastID|]]; simpl; [|exact Hidx].
    unfold serverArray.add. apply Forall_app. split; [exact Hidx|].
    constructor; [|constructor]. apply slice0_length_le.
    unfold serverArray.ALENGTH. lia.
  - intros s' H. unfold serverArray.synchronizeFAISS in H.
    destruct count_err; [now inversion H; subst|].
    destruct (_ =? 0); [now inversion H; subst|].
    destruct all_err; [now inversion H; subst|].
    destruct (serverArray.add_rows _ _) as [idx|] eqn:Hrows; [|discriminate].
    inversion H; subst. simpl. now apply (add_rows_cut_short _ _ _ Hidx Hrows).
  - intros vec c lastID Hsent -> ->. revert Hsent. unfold serverArray.post_add.
    destruct (missing (Some c)); [discriminate|].
    cbn [embedArray.getEmbeddings text_of].
    destruct db_err; [discriminate|].
    unfold insert_or_ignore.
    destruct (has_content c (documents (db s))); [discriminate|].
    simpl. intros H. inversion H; subst.
    eexists. split; [apply in_or_app; right; left; reflexivity|].
    split; [reflexivity|]. apply to_buffer_length.
Qed.

Lemma serverArray_index_is_cut_witness :
  Forall (fun it => Z.of_nat (List.length (vector it)) <= serverArray.ALENGTH)
         (index (after (serverArray.post_add empty_state (Some "dogs bark")
                          (Fulfilled [0; 1; 2; 3; 4; 5; 6]%float) false))).
Proof.
  refine (proj1 (serverArray_index_is_cut empty_state (Some "dogs bark")
                   (Fulfilled [0; 1; 2; 3; 4; 5; 6]%float) false false false _)).
  constructor.
Defined.

(** ** The token helpers of [embed.js] *)

Lemma string_length_append (a b : string) :
  String.length (a ++ b) = (String.length a + String.length b)%nat.
Proof. induction a as [|c a IH]; simpl; [reflexivity|now rewrite IH]. Qed.

Lemma string_length_prefix (n : nat) (s : string) :
  String.length (String.substring 0 n s) = Nat.min n (String.length s).
Proof.
  revert n. induction s as [|c s IH]; intros [|n]; simpl; try reflexivity.
  now rewrite IH.
Qed.

(** X13: the prompt [getRelevantTokens] sends never has more than 4096
    characters: a token text that fits between the two fixed parts goes
    in whole, a longer one is cut to the room that is left. *)
Theorem relevant_tokens_prompt_bound (page : string + list string) :
  let tokenString :=
    match page with inl text => text | inr arr => tokens.join_spaces arr end in
  let room := (4096 - String.length tokens.promptStart
                    - String.length tokens.promptEnd)%nat in
  (String.length (tokens.prompt_of page) <= 4096)%nat
  /\ String.length (tokens.prompt_of page)
     = (String.length tokens.promptStart
        + Nat.min room (String.length tokenString)
        + String.length tokens.promptEnd)%nat
  /\ ((String.length tokenString <= room)%nat ->
      tokens.prompt_of page
      = (tokens.promptStart ++ tokenString ++ tokens.promptEnd)%string).
Proof.
  intros tokenString room. unfold tokens.prompt_of.
  fold tokenString. fold room.
  assert (Hroom : (String.length tokens.promptStart + room
                   + String.length tokens.promptEnd = 4096)%nat)
    by (subst room; vm_compute; reflexivity).
  destruct (Nat.ltb_spec room (String.length tokenString)) as [Hlong|Hfits].
  - rewrite !string_length_append, string_length_prefix.
    repeat split; try lia.
  - rewrite !string_length_append. repeat split; lia.
Qed.

Lemma split_spaces_nonempty (s : string) : tokens.split_spaces s <> [].
Proof.
  induction s as [|c s IH]; simpl; [discriminate|].
  destruct (Ascii.eqb c " "); [discriminate|].
  destruct (tokens.split_spaces s); discriminate.
Qed.

Lemma join_split_spaces (s : string) :
  tokens.join_spaces (tokens.split_spaces s) = s.
Proof.
  unfold tokens.join_spaces. induction s as [|c s IH]; [reflexivity|].
  simpl tokens.split_spaces.
  pose proof (split_spaces_nonempty s) as Hne.
  destruct (tokens.split_spaces s) as [|piece pieces]; [contradiction|].
  destruct (Ascii.eqb_spec c " ") as [->|Hc].
  - change (String.concat " " (EmptyString :: piece :: pieces))
      with (String " " (String.concat " " (piece :: pieces))).
    now rewrite IH.
  - destruct pieces as [|piece' pieces].
    + change (String.concat " " [piece]) with piece in IH.
      change (String.concat " " [String c piece]) with (String c piece).
      now rewrite IH.
    + change (String.concat " " (String c piece :: piece' :: pieces))
        with (String c (piece ++ " " ++ String.concat " " (piece' :: pieces))%string).
      change (String.concat " " (piece :: piece' :: pieces))
        with (piece ++ " " ++ String.concat " " (piece' :: pieces))%string in IH.
      now rewrite IH.
Qed.

(** X14: [saveRelevantTokensToCsv] writes all or nothing.  When every
    call of [getRelevantTokens] succeeds it writes one record per
    content, in order, each with the content's url and the trimmed text
    of the completion (splitting on spaces and joining with spaces
    gives the text back); when a call fails it throws before anything
    is written. *)
Theorem saveRelevantTokensToCsv_all_or_nothing
        (contents : list (tokens.tokenized * outcome string)) :
  match tokens.saveRelevantTokensToCsv contents with
  | Return records =>
      Forall2 (fun content record =>
                 tokens.record_url record = tokens.url (fst content)
                 /\ exists text, snd content = Fulfilled text
                                 /\ tokens.relevantTokens record = tokens.trim text)
              contents records
  | Throw e =>
      e = "Error calling OpenAI API getRelevantTokens completions.create"
      /\ exists content, In content contents /\ snd content = Rejected
  end.
Proof.
  unfold tokens.saveRelevantTokensToCsv.
  induction contents as [|[content api] contents IH]; simpl; [constructor|].
  destruct api as [text|]; simpl.
  - destruct (tokens.collect_records contents) as [records|e].
    + constructor; [|exact IH]. simpl. split; [reflexivity|].
      exists text. split; [reflexivity|]. apply join_split_spaces.
    + destruct IH as [He (c & Hin & Hc)]. split; [exact He|].
      exists c. split; [now right|exact Hc].
  - split; [reflexivity|]. exists (content, Rejected). split; [now left|reflexivity].
Qed.

Lemma relevant_tokens_prompt_bound_witness :
  tokens.prompt_of (inr ["cats"; "bark"])
  = (tokens.promptStart ++ "cats bark" ++ tokens.promptEnd)%string.
Proof.
  refine (proj2 (proj2 (relevant_tokens_prompt_bound (inr ["cats"; "bark"]))) _).
  apply Nat.leb_le. vm_compute. reflexivity.
Defined.

Lemma split_spaces_no_space (s : string) :
  Forall (fun piece => ~ In " "%char (list_ascii_of_string piece))
         (tokens.split_spaces s).
Proof.
  induction s as [|c s IH]; simpl.
  - constructor; [intros []|constructor].
  - destruct (Ascii.eqb_spec c " ") as [->|Hc].
    + constructor; [intros []|exact IH].
    + destruct (tokens.split_spaces s) as [|piece pieces].
      * constructor; [|constructor]. simpl. intros [H|[]]. congruence.
      * inversion IH as [|? ? Hp Hps]; subst. constructor; [|exact Hps].
        simpl. intros [H|H]; [congruence|contradiction].
Qed.

(** X15: [getRelevantTokens] rethrows a failure of the client; on
    success it returns at least one token, no token contains a space,
    and the tokens joined by single spaces are the trimmed text of the
    completion. *)
Theorem getRelevantTokens_tokens (page : string + list string) (api : outcome string) :
  match tokens.getRelevantTokens page api with
  | Return relevant =>
      exists text, api = Fulfilled text
                   /\ relevant <> []
                   /\ Forall (fun piece => ~ In " "%char (list_ascii_of_string piece))
                             relevant
                   /\ tokens.join_spaces relevant = tokens.trim text
  | Throw e =>
      api = Rejected
      /\ e = "Error calling OpenAI API getRelevantTokens completions.create"
  end.
Proof.
  destruct api as [text|]; simpl; [|now split].
  exists text. split; [reflexivity|]. split; [apply split_spaces_nonempty|].
  split; [apply split_spaces_no_space|apply join_split_spaces].
Qed.

(** ** Bulk loading: [/load-documents] of [server.js] *)

Lemma load_files_app (fs1 fs2 : list folder_file) (s : state)
      (results : list loaded) (cs : list call) :
  routes.load_files (fs1 ++ fs2) s results cs
  = match routes.load_files fs1 s results cs with
    | (Return results1, s1, cs1) => routes.load_files fs2 s1 results1 cs1
    | (Throw e, s1, cs1) => (Throw e, s1, cs1)
    end.
Proof.
  revert s results cs. induction fs1 as [|f fs1 IH]; intros s results cs; simpl.
  - reflexivity.
  - destruct (read f) as [text|e]; [|reflexivity].
    destruct (embed.getEmbeddings (embedded f)) as [vec|e]; [|reflexivity].
    destruct (run_err f) as [e|]; [reflexivity|].
    destruct (insert_or_ignore (db s) text (Buffer.from vec)) as [d [lastID|]];
      apply IH.
Qed.

(** X16: [/load-documents] does not undo anything.  When the files
    before a failing one loaded, the handler answers 500 with the
    message of the failure, the files after it are not touched, and the
    rows and index entries of the files before it stay. *)
Theorem load_documents_keeps_what_was_loaded
        (s s1 : state) (good rest : list folder_file) (bad : folder_file)
        (results : list loaded) (cs1 : list call) (e : string) :
  routes.load_files good s [] [] = (Return results, s1, cs1) ->
  read bad = Failed e
  \/ (exists text, read bad = Resolved text
                   /\ (embedded bad = Rejected
                       /\ e = "Error calling OpenAI API getEmbeddings"
                       \/ exists vec, embedded bad = Fulfilled vec
                                      /\ run_err bad = Some e)) ->
  let r := routes.load_documents s (Resolved (good ++ bad :: rest)) in
  load_sent r = {| admin_status := 500;
                   admin_json := ErrorReply "Error loading documents." (Some e) |}
  /\ load_after r = s1.
Proof.
  intros Hgood Hbad r. subst r. unfold routes.load_documents.
  rewrite load_files_app, Hgood. simpl routes.load_files.
  destruct Hbad as [-> | (text & -> & [[-> ->] | (vec & -> & ->)])];
    simpl; split; reflexivity.
Qed.

Lemma load_documents_keeps_what_was_loaded_witness :
  let first := {| file := "a.txt"; read := Resolved "dogs bark";
                  embedded := Fulfilled [0; 1]%float; run_err := None |} in
  let second := {| file := "b"; read := Failed "EISDIR";
                   embedded := Rejected; run_err := None |} in
  let r := routes.load_documents empty_state (Resolved ([first] ++ second :: [])) in
  load_sent r = {| admin_status := 500;
                   admin_json := ErrorReply "Error loading documents." (Some "EISDIR") |}
  /\ load_after r
     = {| db := {| documents := [ {| id := 1; content := "dogs bark";
                                     vector_blob := [Byte.x00; Byte.x01] |} ];
                   sqlite_sequence := 1 |};
          index := [ {| vector := [0; 1]%float; docId := 1 |} ] |}.
Proof.
  intros first second.
  apply (load_documents_keeps_what_was_loaded empty_state _ [first] [] second
           [ {| loaded_docId := 1; loaded_file := "a.txt" |} ]
           [EmbeddingsCreate "dogs bark"] "EISDIR").
  - vm_compute. reflexivity.
  - left. reflexivity.
Defined.

Lemma compare_cont_lt (p q : positive) :
  Pos.compare_cont Eq p q = Lt -> Z.pos p < Z.pos q.
Proof. intros H. exact H. Qed.

Lemma to_uint8_below_one (x : JS.number) :
  PrimFloat.ltb (PrimFloat.abs x) 1 = true -> Buffer.to_uint8 x = Byte.x00.
Proof.
  intros H. rewrite ltb_spec, abs_spec in H.
  pose proof (Prim2SF_valid x) as Hv.
  unfold Buffer.to_uint8.
  destruct (Prim2SF x) as [s|s| |s m e]; try reflexivity.
  assert (Hone : Prim2SF 1 = S754_finite false 4503599627370496 (-52))
    by (vm_compute; reflexivity).
  rewrite Hone in H. clear Hone.
  unfold SFltb, SFabs, SFcompare in H.
  apply andb_prop in Hv. destruct Hv as [Hc Hb].
  unfold canonical_mantissa in Hc. apply Z.eqb_eq in Hc.
  unfold fexp in Hc.
  pose proof (digits2_pos_bounds m) as [_ Hm].
  assert (He : e < 0 /\ Z.pos m < 2 ^ (- e)).
  { destruct (Z.compare_spec e (-52)) as [He|He|He]; try discriminate.
    - subst e. split; [lia|].
      destruct (Pos.compare_cont Eq m 4503599627370496) eqn:Hcmp;
        try discriminate.
      apply compare_cont_lt in Hcmp.
      assert (H52 : 2 ^ (- -52) = 4503599627370496) by (vm_compute; reflexivity).
      rewrite H52. exact Hcmp.
    - split; [lia|].
      assert (Hd : Z.pos (digits2_pos m) <= - e).
      { revert Hc. unfold prec, emax. lia. }
      eapply Z.lt_le_trans; [exact Hm|].
      apply Z.pow_le_mono_r; lia. }
  destruct He as [He Hlt].
  replace (0 <=? e) with false by (symmetry; apply Z.leb_gt; exact He).
  rewrite Z.div_small by lia.
  destruct s; vm_compute; reflexivity.
Qed.

Lemma from_below_one (vec : list JS.number) :
  Forall (fun x => PrimFloat.ltb (PrimFloat.abs x) 1 = true) vec ->
  Buffer.from vec = repeat Byte.x00 (List.length vec).
Proof.
  induction 1 as [|x vec Hx _ IH]; simpl; [reflexivity|].
  rewrite to_uint8_below_one by exact Hx. f_equal. exact IH.
Qed.

Lemma of_buffer_zero_bytes (k : nat) :
  Float32.of_buffer (repeat Byte.x00 (4 * k)) = Some (repeat 0%float k).
Proof.
  induction k as [|k IH]; [reflexivity|].
  replace (4 * S k)%nat with (S (S (S (S (4 * k))))) by lia.
  cbn [repeat Float32.of_buffer]. rewrite IH.
  assert (Hzero : Float32.widen (Float32.of_bits
                    (Float32.bytes_word Byte.x00 Byte.x00 Byte.x00 Byte.x00))
                  = 0%float) by (vm_compute; reflexivity).
  rewrite Hzero. reflexivity.
Qed.

(** X17: [/load-documents] stores [Buffer.from(vector)], one byte per
    component holding its integer part.  For a file with new content
    whose embedding has every component strictly between -1 and 1, the
    row holds one zero byte per component while the index holds the
    vector itself; read back as 32-bit floats that blob is a vector of
    zeros a quarter as long, or no vector at all when the length is no
    multiple of 4.  The content is not tested: an empty file is stored
    too. *)
Theorem load_documents_stores_truncated_bytes
        (s : state) (f : folder_file) (text : string) (vec : list JS.number) :
  read f = Resolved text ->
  embedded f = Fulfilled vec ->
  run_err f = None ->
  has_content text (documents (db s)) = false ->
  Forall (fun x => PrimFloat.ltb (PrimFloat.abs x) 1 = true) vec ->
  let r := routes.load_documents s (Resolved [f]) in
  let blob := repeat Byte.x00 (List.length vec) in
  exists lastID,
    load_sent r
    = {| admin_status := 200;
         admin_json := LoadReply "Loaded 1 documents."
                                 [{| loaded_docId := lastID; loaded_file := file f |}] |}
    /\ documents (db (load_after r))
       = documents (db s) ++ [{| id := lastID; content := text; vector_blob := blob |}]
    /\ index (load_after r) = index s ++ [{| vector := vec; docId := lastID |}]
    /\ Float32.of_buffer blob
       = if (List.length vec mod 4 =? 0)%nat
         then Some (repeat 0%float (List.length vec / 4))
         else None.
Proof.
  intros Hread Hemb Hrun Hfresh Hsmall r blob. subst r blob.
  unfold routes.load_documents. cbn [routes.load_files].
  rewrite Hread, Hemb, Hrun. cbn [embed.getEmbeddings].
  rewrite (from_below_one _ Hsmall).
  destruct (insert_or_ignore_fresh (db s) text
              (repeat Byte.x00 (List.length vec)) Hfresh) as (rowid & -> & _).
  exists rowid. cbn [load_sent load_after db index documents FAISS.add app List.length].
  repeat split.
  destruct (Nat.eqb_spec (List.length vec mod 4) 0) as [Hmod|Hmod].
  - apply Nat.Div0.div_exact in Hmod. rewrite Hmod at 1.
    apply of_buffer_zero_bytes.
  - pose proof (of_buffer_length_bounded _ (repeat Byte.x00 (List.length vec))
                  (Nat.le_refl _)) as Hlen.
    destruct (Float32.of_buffer (repeat Byte.x00 (List.length vec))) as [decoded|];
      [|reflexivity].
    rewrite repeat_length in Hlen. exfalso. apply Hmod. rewrite Hlen.
    rewrite Nat.mul_comm. apply Nat.Div0.mod_mul.
Qed.

Lemma load_documents_stores_truncated_bytes_witness :
  let f := {| file := "a.txt"; read := Resolved "";
              embedded := Fulfilled [0.5; -0.25; 0.125; 0.75]%float;
              run_err := None |} in
  let r := routes.load_documents empty_state (Resolved [f]) in
  exists lastID,
    load_sent r
    = {| admin_status := 200;
         admin_json := LoadReply "Loaded 1 documents."
                                 [{| loaded_docId := lastID; loaded_file := "a.txt" |}] |}
    /\ documents (db (load_after r))
       = [{| id := lastID; content := "";
             vector_blob := [Byte.x00; Byte.x00; Byte.x00; Byte.x00] |}]
    /\ index (load_after r)
       = [{| vector := [0.5; -0.25; 0.125; 0.75]%float; docId := lastID |}]
    /\ Float32.of_buffer [Byte.x00; Byte.x00; Byte.x00; Byte.x00] = Some [0%float].
Proof.
  intros f.
  apply (load_documents_stores_truncated_bytes empty_state f ""
           [0.5; -0.25; 0.125; 0.75]%float);
    try reflexivity.
  repeat constructor.
Defined.

Lemma load_files_grows (files : list folder_file) :
  forall (s : state) (results : list loaded) (cs : list call)
         (ret : completion (list loaded)) (s' : state) (cs' : list call),
    routes.load_files files s results cs = (ret, s', cs') ->
    well_formed s ->
    well_formed s'
    /\ exists rows,
        documents (db s') = documents (db s) ++ rows
        /\ map docId (index s') = map docId (index s) ++ map id rows
        /\ forall results',
            ret = Return results' ->
            exists added, results' = results ++ added
                          /\ map loaded_docId added = map id rows.
Proof.
  induction files as [|f files IH]; intros s results cs ret s' cs' H Hwf.
  - simpl in H. inversion H; subst. split; [exact Hwf|].
    exists []. rewrite !app_nil_r. repeat split.
    intros results' Hr. inversion Hr; subst. exists []. now rewrite app_nil_r.
  - assert (Hstop : forall e, (Throw e, s, cs') = (ret, s', cs') ->
                well_formed s'
                /\ exists rows,
                    documents (db s') = documents (db s) ++ rows
                    /\ map docId (index s') = map docId (index s) ++ map id rows
                    /\ forall results',
                        ret = Return results' ->
                        exists added, results' = results ++ added
                                      /\ map loaded_docId added = map id rows).
    { intros e He. inversion He; subst. split; [exact Hwf|].
      exists []. rewrite !app_nil_r. repeat split. intros ? Hr. discriminate. }
    simpl in H.
    destruct (read f) as [text|e]; [|inversion H; subst; now apply (Hstop e)].
    destruct (embed.getEmbeddings (embedded f)) as [vec|e];
      [|inversion H; subst; now apply (Hstop e)].
    destruct (run_err f) as [e|]; [inversion H; subst; now apply (Hstop e)|].
    clear Hstop.
    destruct (has_content text (documents (db s))) eqn:Hhas.
    + rewrite (insert_or_ignore_present _ _ _ Hhas) in H.
      apply IH in H; [exact H | exact Hwf].
    + destruct (insert_or_ignore_fresh (db s) text (Buffer.from vec) Hhas)
        as (rowid & Hins & Hnew).
      rewrite Hins in H.
      destruct Hwf as (Hc & Hi & Hx).
      apply IH in H.
      * destruct H as (Hwf' & rows & Hdocs & Hidx & Hres).
        split; [exact Hwf'|].
        cbn [db index documents] in Hdocs, Hidx.
        exists ({| id := rowid; content := text; vector_blob := Buffer.from vec |} :: rows).
        split; [rewrite Hdocs, <- app_assoc; reflexivity|].
        split.
        { rewrite Hidx. unfold FAISS.add. rewrite map_app, <- app_assoc. reflexivity. }
        intros results' Hr. destruct (Hres _ Hr) as (added & -> & Hadded).
        exists ({| loaded_docId := rowid; loaded_file := file f |} :: added).
        split; [rewrite <- app_assoc; reflexivity|].
        simpl. now rewrite Hadded.
      * unfold well_formed, FAISS.add. cbn [db index documents].
        rewrite !map_app. simpl. repeat split.
        -- apply NoDup_snoc; [exact Hc|].
           intros Hin. apply has_content_In in Hin. congruence.
        -- now apply NoDup_snoc.
        -- now rewrite Hx.
Qed.

(** X18: [/load-documents], whether it answers 200 or 500, only appends:
    the rows that were there stay in place, the contents and ids stay
    unique and the index stays aligned with the table.  When it answers
    200 the [results] of the response list, in order, exactly the ids
    of the rows it added. *)
Theorem load_documents_keeps_alignment
        (s : state) (dir : settled (list folder_file)) :
  well_formed s ->
  let r := routes.load_documents s dir in
  well_formed (load_after r)
  /\ exists rows,
      documents (db (load_after r)) = documents (db s) ++ rows
      /\ map docId (index (load_after r)) = map docId (index s) ++ map id rows
      /\ forall message results,
          admin_json (load_sent r) = LoadReply message results ->
          admin_status (load_sent r) = 200
          /\ message = ("Loaded " ++ nat_to_string (List.length rows) ++ " documents.")%string
          /\ map loaded_docId results = map id rows.
Proof.
  intros Hwf r. subst r. unfold routes.load_documents.
  destruct dir as [files|e].
  - destruct (routes.load_files files s [] []) as [[ret s'] cs'] eqn:Hload.
    destruct (load_files_grows _ _ _ _ _ _ _ Hload Hwf)
      as (Hwf' & rows & Hdocs & Hidx & Hres).
    destruct ret as [results|e]; cbn [load_after load_sent admin_json admin_status].
    + split; [exact Hwf'|]. exists rows.
      split; [exact Hdocs|]. split; [exact Hidx|].
      intros msg results' H. inversion H; subst.
      destruct (Hres _ eq_refl) as (added & Heq & Hadded).
      simpl in Heq. subst added.
      split; [reflexivity|]. split; [|exact Hadded].
      now rewrite <- (length_map id rows), <- Hadded, length_map.
    + split; [exact Hwf'|]. exists rows.
      split; [exact Hdocs|]. split; [exact Hidx|]. discriminate.
  - cbn [load_after load_sent admin_json admin_status].
    split; [exact Hwf|]. exists []. rewrite !app_nil_r.
    split; [reflexivity|]. split; [reflexivity|]. discriminate.
Qed.

Lemma load_documents_keeps_alignment_witness :
  let f := {| file := "a.txt"; read := Resolved "dogs bark";
              embedded := Fulfilled [0; 1]%float; run_err := None |} in
  well_formed (load_after (routes.load_documents empty_state (Resolved [f; f]))).
Proof.
  intros f.
  refine (proj1 (load_documents_keeps_alignment empty_state (Resolved [f; f]) _)).
  unfold well_formed, empty_state; simpl. repeat split; constructor.
Defined.

(** X19: the number the count of [/count-documents] reports is, in a
    well-formed state, the number of index entries [/search] ranks.  An
    [/add] raises it by one exactly when it answers "Document added."
    and leaves it alone otherwise, in both servers. *)
Theorem count_documents_follows_add
        (s : state) (field : option string)
        (api : outcome (list JS.number)) (db_err : bool) :
  well_formed s ->
  let count s := Z.of_nat (List.length (index s)) in
  let added (r : reply) :=
    match sent r with
    | Some {| status := 200; json := Message "Document added." (Some _) |} => 1
    | _ => 0
    end in
  routes.count_documents s false
  = {| admin_status := 200; admin_json := CountReply (count s) |}
  /\ (let r := server.post_add s field api db_err in
      routes.count_documents (after r) false
      = {| admin_status := 200; admin_json := CountReply (count s + added r) |})
  /\ (let r := serverArray.post_add s field api db_err in
      routes.count_documents (after r) false
      = {| admin_status := 200; admin_json := CountReply (count s + added r) |}).
Proof.
  intros Hwf count added.
  assert (Hcount : forall s0, well_formed s0 ->
             Z.of_nat (List.length (documents (db s0))) = count s0).
  { intros s0 (_ & _ & Hx). subst count. cbv beta.
    now rewrite <- (length_map id), <- Hx, length_map. }
  unfold routes.count_documents. rewrite (Hcount s Hwf).
  split; [reflexivity|]. subst added. split.
  - unfold server.post_add.
    destruct (missing field); cbn; [now rewrite Z.add_0_r, (Hcount s Hwf)|].
    destruct api as [vec|]; cbn; [|now rewrite Z.add_0_r, (Hcount s Hwf)].
    destruct db_err; cbn; [now rewrite Z.add_0_r, (Hcount s Hwf)|].
    destruct (has_content (text_of field) (documents (db s))) eqn:Hhas.
    + rewrite (insert_or_ignore_present _ _ _ Hhas). cbn.
      now rewrite Z.add_0_r, (Hcount s Hwf).
    + destruct (insert_or_ignore_fresh (db s) (text_of field)
                  (Float32.to_buffer vec) Hhas) as (rowid & -> & _).
      cbn. rewrite length_app, Nat2Z.inj_add, (Hcount s Hwf). reflexivity.
  - unfold serverArray.post_add.
    destruct (missing field); cbn; [now rewrite Z.add_0_r, (Hcount s Hwf)|].
    destruct api as [vec|]; cbn; [|now rewrite Z.add_0_r, (Hcount s Hwf)].
    destruct db_err; cbn; [now rewrite Z.add_0_r, (Hcount s Hwf)|].
    destruct (has_content (text_of field) (documents (db s))) eqn:Hhas.
    + rewrite (insert_or_ignore_present _ _ _ Hhas). cbn.
      now rewrite Z.add_0_r, (Hcount s Hwf).
    + destruct (insert_or_ignore_fresh (db s) (text_of field)
                  (Float32.to_buffer vec) Hhas) as (rowid & -> & _).
      cbn. rewrite length_app, Nat2Z.inj_add, (Hcount s Hwf). reflexivity.
Qed.

Lemma count_documents_follows_add_witness :
  routes.count_documents
    (after (server.post_add empty_state (Some "dogs bark") (Fulfilled [0; 1]%float) false))
    false
  = {| admin_status := 200; admin_json := CountReply 1 |}.
Proof.
  refine (proj1 (proj2 (count_documents_follows_add empty_state (Some "dogs bark")
                          (Fulfilled [0; 1]%float) false _))).
  unfold well_formed, empty_state; simpl. repeat split; constructor.
Defined.
